(** * download-music.py: a shallow embedding of the orchestration script

    The script parses its command line with argparse, optionally changes
    into [~/Downloads], checks for the song list, runs [youtube-dl] on it,
    clears the list and runs [sox] twice over every [.mp3] entry of the
    working directory.

    Everything the script does is an effect, so the embedding is a state
    and exception monad over an explicit [World] (working directory, file
    contents, standard output and error, the log of operating-system calls
    issued so far, and the pending user interrupt).  What the script cannot
    know is taken from an environment [Env]: the home directory, the
    behaviour of every external process, and the name handed out by
    [NamedTemporaryFile].

    Scope of the model: paths are compared as they are written (no [..],
    no symbolic links); operating-system calls do not fail with [OSError]
    (the default directory exists, the list file is writable, both tools
    are installed); argparse is modelled as CPython 3.11 behaves on a
    parser that declares only optionals.  Every value the parser stores
    is a boolean or a string, with one exception the model keeps apart:
    [--song-list=--] stores the empty list. *)

From Stdlib Require Import Ascii ZArith.
From stdpp Require Import gmap strings list fin_maps.

Local Open Scope Z_scope.

(** ** Strings *)

Module Str.

(** The double quote character, as a one-character string. *)
Definition dq : string := String (ascii_of_nat 34) EmptyString.

(** The newline character. *)
Definition nl : ascii := ascii_of_nat 10.

(** [p.startswith(s)] read the other way round: is [p] a prefix of [s]? *)
Fixpoint startswith (p s : string) : bool :=
  match p, s with
  | EmptyString, _ => true
  | String a p', String b s' => Ascii.eqb a b && startswith p' s'
  | String _ _, EmptyString => false
  end.

(** [s[n:]] *)
Fixpoint drop (n : nat) (s : string) : string :=
  match n, s with
  | O, _ => s
  | S n', String _ s' => drop n' s'
  | S _, EmptyString => EmptyString
  end.

(** [s.endswith(suf)] *)
Definition endswith (s suf : string) : bool :=
  (Nat.leb (String.length suf) (String.length s)) &&
  String.eqb (drop (String.length s - String.length suf) s) suf.

(** [c in s] *)
Fixpoint contains (c : ascii) (s : string) : bool :=
  match s with
  | EmptyString => false
  | String a s' => Ascii.eqb a c || contains c s'
  end.

(** [s.split(c, 1)] for a string that contains [c]: the text before the
    first [c] and the text after it; [None] when [c] does not occur. *)
Fixpoint split1 (c : ascii) (s : string) : option (string * string) :=
  match s with
  | EmptyString => None
  | String a s' =>
      if Ascii.eqb a c then Some (EmptyString, s')
      else match split1 c s' with
           | Some (l, r) => Some (String a l, r)
           | None => None
           end
  end.

(** The text before the first [c], the whole string when there is none. *)
Definition before (c : ascii) (s : string) : string :=
  match split1 c s with
  | Some (l, _) => l
  | None => s
  end.

Definition is_digit (a : ascii) : bool :=
  let n := nat_of_ascii a in Nat.leb 48 n && Nat.leb n 57.

Fixpoint all_digits (s : string) : bool :=
  match s with
  | EmptyString => true
  | String a s' => is_digit a && all_digits s'
  end.

End Str.

(** ** The file system and the world *)

(** Regular files: absolute path to content.  Directories exist through
    the files below them. *)
Abbreviation FS := (gmap string string).

(** Operating-system calls the script issues, with paths resolved. *)
Inductive Event :=
| EChdir (d : string)
| EIsFile (p : string)
| ESpawn (argv : list string)
| EOpenW (p : string)
| EMkTemp (p : string)
| EListDir (d : string)
| EUnlink (p : string).

Record World := mkWorld {
  cwd : string;              (* the process's working directory *)
  fs : FS;
  out : list string;         (* one entry per [print] call *)
  err : list string;         (* what the interpreter writes to stderr *)
  log : list Event;          (* calls issued so far, oldest first *)
  sigint : option nat        (* [Some n]: Ctrl-C arrives at the (n+1)-th
                                interruptible call from now *)
}.

(** What the script takes from its surroundings. *)
Record Env := mkEnv {
  home : string;                                (* [expanduser('~')] *)
  proc : list string → string → FS → FS * Z;    (* a child run to its end: argv, cwd, files *)
  proc_killed : list string → string → FS → FS; (* the same child, interrupted *)
  mkstemp : FS → string                         (* directory and random stem of a temporary name *)
}.

Definition set_cwd (d : string) (w : World) : World :=
  mkWorld d (fs w) (out w) (err w) (log w) (sigint w).
Definition set_fs (m : FS) (w : World) : World :=
  mkWorld (cwd w) m (out w) (err w) (log w) (sigint w).
Definition add_out (s : string) (w : World) : World :=
  mkWorld (cwd w) (fs w) (out w ++ [s]) (err w) (log w) (sigint w).
Definition add_err (s : string) (w : World) : World :=
  mkWorld (cwd w) (fs w) (out w) (err w ++ [s]) (log w) (sigint w).
Definition add_log (e : Event) (w : World) : World :=
  mkWorld (cwd w) (fs w) (out w) (err w) (log w ++ [e]) (sigint w).
Definition set_sigint (i : option nat) (w : World) : World :=
  mkWorld (cwd w) (fs w) (out w) (err w) (log w) i.

(** [os.path.join(cwd, p)]: an absolute path stands for itself. *)
Definition resolve (d p : string) : string :=
  if Str.startswith "/" p then p else d +:+ "/" +:+ p.

(** The name of the entry of directory [d] through which the file at path
    [k] is reached, if [k] lies below [d]. *)
Definition entry_under (d k : string) : option string :=
  let base := d +:+ "/" in
  if Str.startswith base k then
    match Str.before "/" (Str.drop (String.length base) k) with
    | EmptyString => None
    | name => Some name
    end
  else None.

(** [os.listdir(d)]: files and subdirectories alike, in no promised order. *)
Definition listdir (d : string) (m : FS) : list string :=
  remove_dups (omap (entry_under d) (map fst (map_to_list m))).

(** [os.path.isfile(p)] in directory [d]. *)
Definition is_file (d p : string) (m : FS) : bool :=
  match p with
  | EmptyString => false
  | _ => bool_decide (is_Some (m !! resolve d p))
  end.

(** ** The monad: state, [SystemExit] and [KeyboardInterrupt] *)

Inductive Exn :=
| SystemExit (code : string)
| KeyboardInterrupt.

Inductive Res (A : Type) :=
| Ok (a : A)
| Raise (e : Exn).
Arguments Ok {A} a.
Arguments Raise {A} e.

Definition M (A : Type) : Type := World → Res A * World.

#[global] Instance M_ret : MRet M := λ A a w, (Ok a, w).

#[global] Instance M_bind : MBind M := λ A B k m w,
  match m w with
  | (Ok a, w') => k a w'
  | (Raise e, w') => (Raise e, w')
  end.

Definition raise {A} (e : Exn) : M A := λ w, (Raise e, w).

Definition modify (f : World → World) : M unit := λ w, (Ok tt, f w).

Definition gets {A} (f : World → A) : M A := λ w, (Ok (f w), w).

(** [try: m finally: fin] *)
Definition finally {A} (m : M A) (fin : World → World) : M A :=
  λ w, let '(r, w') := m w in (r, fin w').

(** ** Operating-system primitives *)

(** A point at which a pending Ctrl-C is delivered. *)
Definition checkpoint : M unit :=
  λ w, match sigint w with
       | Some O => (Raise KeyboardInterrupt, set_sigint None w)
       | Some (S n) => (Ok tt, set_sigint (Some n) w)
       | None => (Ok tt, w)
       end.

(** [os.chdir(d)] *)
Definition chdir (d : string) : M unit :=
  checkpoint ;; modify (λ w, set_cwd d (add_log (EChdir d) w)).

(** [os.path.isfile(p)] *)
Definition isfile (p : string) : M bool :=
  checkpoint ;;
  d ← gets cwd;
  modify (add_log (EIsFile (resolve d p))) ;;
  gets (λ w, is_file d p (fs w)).

(** [subprocess.run(argv).returncode].  The call blocks: a Ctrl-C that
    arrives here finds the child started, kills it with whatever it has
    written so far, and is raised in the script. *)
Definition subprocess_run (E : Env) (argv : list string) : M Z :=
  λ w, match sigint w with
       | Some O =>
           (Raise KeyboardInterrupt,
            set_sigint None
              (set_fs (proc_killed E argv (cwd w) (fs w)) (add_log (ESpawn argv) w)))
       | i =>
           let '(m, rc) := proc E argv (cwd w) (fs w) in
           (Ok rc, set_sigint (pred <$> i) (set_fs m (add_log (ESpawn argv) w)))
       end.

(** [with open(p, 'w') as f: f.write(s)] *)
Definition write_file (p s : string) : M unit :=
  checkpoint ;;
  modify (λ w, let q := resolve (cwd w) p in
               set_fs (<[q := s]> (fs w)) (add_log (EOpenW q) w)).

(** [print(s)] *)
Definition print (s : string) : M unit :=
  checkpoint ;; modify (add_out s).

(** [NamedTemporaryFile(suffix='.mp3')]: a new, empty file; its name. *)
Definition NamedTemporaryFile (E : Env) : M string :=
  checkpoint ;;
  p ← gets (λ w, mkstemp E (fs w) +:+ ".mp3");
  modify (λ w, set_fs (<[p := ""]> (fs w)) (add_log (EMkTemp p) w)) ;;
  mret p.

(** Leaving the [with] block: the temporary file is closed and removed. *)
Definition close_tmp (p : string) (w : World) : World :=
  set_fs (delete p (fs w)) (add_log (EUnlink p) w).

(** [os.listdir('.')] *)
Definition os_listdir : M (list string) :=
  checkpoint ;;
  d ← gets cwd;
  modify (add_log (EListDir d)) ;;
  gets (λ w, listdir d (fs w)).

(** [exit(msg)] of the [site] module: raises [SystemExit(msg)]. *)
Definition exit {A} (msg : string) : M A := raise (SystemExit msg).

(** ** The script *)

(** The namespace [parse_args] returns. *)
Record Args := mkArgs {
  song_list : string;
  playlist : bool;
  force : bool;
  quiet : bool;
  wd : bool;
  trim : bool;
  download : bool;
  clear : bool
}.

Definition msg_no_list (song_list : string) : string :=
  "ERROR: Could not find song list " +:+ Str.dq +:+ song_list +:+ Str.dq +:+ ".".

Definition msg_download_failed : string :=
  "ERROR: Could not download from list. Try " +:+ Str.dq +:+ "sudo youtube-dl -U" +:+ Str.dq +:+ ".".

Definition msg_cleared : string := "Download list cleared".

Definition msg_trim_failed (f : string) : string :=
  "WARNING: Failed to trim silence from " +:+ f.

Definition msg_trimmed (f : string) : string :=
  "Silence trimmed from " +:+ f.

Definition msg_interrupted : string :=
  String Str.nl "INTERRUPTED: Terminating. Some files may not be correctly removed.".

(** [os.path.expanduser('~/Downloads')] *)
Definition downloads_dir (E : Env) : string := home E +:+ "/Downloads".

(** [check_dir(wd, song_list, file_needed)] *)
Definition check_dir (E : Env) (wd : bool) (song_list : string) (file_needed : bool) : M unit :=
  (if negb wd then chdir (downloads_dir E) else mret tt) ;;
  if file_needed then
    present ← isfile song_list;
    if negb present then exit (msg_no_list song_list) else mret tt
  else mret tt.

(** The argument vector [download] builds for [youtube-dl]. *)
Definition dl_args (song_list : string) (quiet force playlist : bool) : list string :=
  ["--extract-audio"; "--audio-format"; "mp3"; "--audio-quality"; "0"; "--geo-bypass"]
  ++ (if quiet then ["-q"; "--console-title"] else [])
  ++ (if force then ["--ignore-errors"] else [])
  ++ (if playlist then ["--yes-playlist"] else ["--no-playlist"])
  ++ ["--default-search"; "ytsearch"; "-a"; song_list; "--output"; "%(title)s.%(ext)s"].

Definition youtube_dl (song_list : string) (quiet force playlist : bool) : list string :=
  "youtube-dl" :: dl_args song_list quiet force playlist.

(** [download(song_list, quiet, force, playlist)]; the name [download]
    itself is taken by the destination of [--nodownload]. *)
Definition download_songs (E : Env) (song_list : string) (quiet force playlist : bool) : M unit :=
  rc ← subprocess_run E (youtube_dl song_list quiet force playlist);
  if negb (rc =? 0) then exit msg_download_failed else mret tt.

(** The two [sox] command lines for file [f] and temporary file [tmp]. *)
Definition sox_end (f tmp : string) : list string :=
  ["sox"; f; tmp; "reverse"; "silence"; "1"; "0.1"; "0.1%"; "reverse"].

Definition sox_start (f tmp : string) : list string :=
  ["sox"; tmp; f; "silence"; "1"; "0.1"; "0.1%"].

(** One turn of the loop of [trim_mp3s], for an entry that ends in [.mp3]. *)
Definition trim_one (E : Env) (quiet : bool) (tmp f : string) : M unit :=
  ret1 ← subprocess_run E (sox_end f tmp);
  ret2 ← subprocess_run E (sox_start f tmp);
  if negb (ret1 =? 0) || negb (ret2 =? 0) then print (msg_trim_failed f)
  else if negb quiet then print (msg_trimmed f)
  else mret tt.

(** The [for f in os.listdir('.')] loop, [continue] included. *)
Fixpoint trim_loop (E : Env) (quiet : bool) (tmp : string) (names : list string) : M unit :=
  match names with
  | [] => mret tt
  | f :: rest =>
      (if negb (Str.endswith f ".mp3") then mret tt else trim_one E quiet tmp f) ;;
      trim_loop E quiet tmp rest
  end.

(** [trim_mp3s(quiet)] *)
Definition trim_mp3s (E : Env) (quiet : bool) : M unit :=
  sox_tmp ← NamedTemporaryFile E;
  finally (names ← os_listdir; trim_loop E quiet sox_tmp names) (close_tmp sox_tmp).

(** The body of the [try] block. *)
Definition steps (E : Env) (a : Args) : M unit :=
  check_dir E (wd a) (song_list a) (download a) ;;
  (if download a then
     download_songs E (song_list a) (quiet a) (force a) (playlist a) ;;
     (if clear a then
        (write_file (song_list a) "" ;;
         if negb (quiet a) then print msg_cleared else mret tt)
      else mret tt)
   else mret tt) ;;
  if trim a then trim_mp3s E (quiet a) else mret tt.

(** How the process ends: its exit status and the world it leaves. *)
Definition script (E : Env) (a : Args) (w : World) : Z * World :=
  match steps E a w with
  | (Ok _, w') => (0, w')
  | (Raise KeyboardInterrupt, w') => (0, add_out msg_interrupted w')
  | (Raise (SystemExit msg), w') => (1, add_err msg w')
  end.

(** ** The command line

    The parser the script builds has the automatic [-h]/[--help] and eight
    optionals of its own; [--notrim] and [--nodownload] are declared in
    one mutually exclusive group.  [parse_args] follows argparse: a first
    pass decides for every string whether it is an option, a second pass
    consumes the options in order. *)

Module Argparse.

Inductive Opt :=
| OHelp | OSongList | OPlaylist | OForce | OQuiet | OWd
| ONoTrim | ONoDownload | ONoClear.

#[global] Instance Opt_eq_dec : EqDecision Opt.
Proof. solve_decision. Defined.

(** The option strings, in the order they are registered. *)
Definition option_strings : list (string * Opt) :=
  [("-h", OHelp); ("--help", OHelp); ("--song-list", OSongList);
   ("--playlist", OPlaylist); ("--force", OForce); ("--quiet", OQuiet);
   ("--wd", OWd); ("--notrim", ONoTrim); ("--nodownload", ONoDownload);
   ("--noclear", ONoClear)].

(** The name argparse gives an action in its messages. *)
Definition action_name (o : Opt) : string :=
  match o with
  | OHelp => "-h/--help"
  | OSongList => "--song-list"
  | OPlaylist => "--playlist"
  | OForce => "--force"
  | OQuiet => "--quiet"
  | OWd => "--wd"
  | ONoTrim => "--notrim"
  | ONoDownload => "--nodownload"
  | ONoClear => "--noclear"
  end.

(** What [parser.error] reports before the process exits with status 2. *)
Inductive ArgError :=
| Ambiguous (arg : string) (matches : list string)
| ExpectedOneArgument (action : string)
| IgnoredExplicit (action : string) (explicit : string)
| NotAllowedWith (action conflict : string)
| Unrecognized (extras : list string).

(** An option found in an argument string: the option string it stands
    for, its action, and the argument glued to it, if any. *)
Definition OptionTuple : Type := string * Opt * option string.

Inductive Class :=
| CArg                               (* 'A' *)
| CMarker                            (* the first [--] *)
| CUnknown                           (* 'O', no such option *)
| COption (t : OptionTuple).         (* 'O' *)

Definition lookup_option (s : string) : option (string * Opt) :=
  List.find (λ p, String.eqb p.1 s) option_strings.

(** [_get_option_tuples] *)
Definition get_option_tuples (s : string) : list OptionTuple :=
  match s with
  | String c0 (String c1 _) =>
      if Ascii.eqb c0 "-" && Ascii.eqb c1 "-" then
        let '(option_prefix, explicit_arg) :=
          match Str.split1 "=" s with
          | Some (l, r) => (l, Some r)
          | None => (s, None)
          end in
        List.flat_map
          (λ p, if Str.startswith option_prefix p.1 then [(p, explicit_arg)] else [])
          option_strings
      else if Ascii.eqb c0 "-" then
        let short_option_prefix := String c0 (String c1 EmptyString) in
        let short_explicit_arg := Str.drop 2 s in
        List.flat_map
          (λ p, if String.eqb p.1 short_option_prefix then [(p, Some short_explicit_arg)]
                else if Str.startswith s p.1 then [(p, None)]
                else [])
          option_strings
      else []
  | _ => []
  end.

(** The text without one final newline: where [$] may match. *)
Fixpoint chomp (s : string) : string :=
  match s with
  | String a EmptyString => if Ascii.eqb a Str.nl then EmptyString else s
  | String a s' => String a (chomp s')
  | EmptyString => EmptyString
  end.

Definition digits1 (s : string) : bool :=
  negb (String.eqb s "") && Str.all_digits s.

(** [_negative_number_matcher]: [^-\d+$|^-\d*\.\d+$], on ASCII text. *)
Definition negative_number (s : string) : bool :=
  match s with
  | String c t =>
      Ascii.eqb c "-" &&
      (let t := chomp t in
       digits1 t ||
       match Str.split1 "." t with
       | Some (l, r) => Str.all_digits l && digits1 r
       | None => false
       end)
  | EmptyString => false
  end.

(** [_parse_optional]: [inr None] for an argument, [inr (Some None)] for
    something that looks like an option and is none. *)
Definition parse_optional (s : string) : ArgError + option (option OptionTuple) :=
  match s with
  | EmptyString => inr None
  | String c _ =>
      if negb (Ascii.eqb c "-") then inr None
      else match lookup_option s with
      | Some p => inr (Some (Some (p, None)))
      | None =>
      if Nat.eqb (String.length s) 1 then inr None
      else match
        match Str.split1 "=" s with
        | Some (l, r) =>
            match lookup_option l with
            | Some p => Some (p, Some r)
            | None => None
            end
        | None => None
        end
      with
      | Some t => inr (Some (Some t))
      | None =>
      match get_option_tuples s with
      | (_ :: _ :: _) as ts => inl (Ambiguous s ((λ t : OptionTuple, t.1.1) <$> ts))
      | [t] => inr (Some (Some t))
      | [] =>
          if negative_number s then inr None
          else if Str.contains " " s then inr None
          else inr (Some None)
      end end end
  end.

(** The first pass: the pattern of 'O', 'A' and '-'. *)
Fixpoint classify (args : list string) : ArgError + list (string * Class) :=
  match args with
  | [] => inr []
  | s :: rest =>
      if String.eqb s "--" then inr ((s, CMarker) :: ((λ x, (x, CArg)) <$> rest))
      else match parse_optional s with
           | inl e => inl e
           | inr c =>
               match classify rest with
               | inl e => inl e
               | inr items =>
                   inr ((s, match c with
                            | None => CArg
                            | Some None => CUnknown
                            | Some (Some t) => COption t
                            end) :: items)
               end
           end
  end.

(** The namespace under construction, the members of the exclusive group
    seen so far, and the strings nothing has consumed.  Every destination
    holds a boolean or a string, with one exception: [--song-list=--]
    leaves the empty list in [song_list] (see [get_values]). *)
Record PState := mkPState {
  ns : Args;
  seen_notrim : bool;
  seen_nodownload : bool;
  extras : list string;
  unnamed : bool             (* [song_list] holds [[]], not the string in [ns] *)
}.

Definition defaults : Args :=
  mkArgs "song-list.txt" false false false false true true true.

Definition initial : PState := mkPState defaults false false [] false.

Definition add_extra (s : string) (st : PState) : PState :=
  mkPState (ns st) (seen_notrim st) (seen_nodownload st) (extras st ++ [s]) (unnamed st).

Definition with_ns (f : Args → Args) (st : PState) : PState :=
  mkPState (f (ns st)) (seen_notrim st) (seen_nodownload st) (extras st) (unnamed st).

(** [take_action] for the actions that take no argument. *)
Definition take_flag (o : Opt) (st : PState) : ArgError + PState :=
  let a := ns st in
  match o with
  | OPlaylist =>
      inr (with_ns (λ a, mkArgs (song_list a) true (force a) (quiet a) (wd a) (trim a) (download a) (clear a)) st)
  | OForce =>
      inr (with_ns (λ a, mkArgs (song_list a) (playlist a) true (quiet a) (wd a) (trim a) (download a) (clear a)) st)
  | OQuiet =>
      inr (with_ns (λ a, mkArgs (song_list a) (playlist a) (force a) true (wd a) (trim a) (download a) (clear a)) st)
  | OWd =>
      inr (with_ns (λ a, mkArgs (song_list a) (playlist a) (force a) (quiet a) true (trim a) (download a) (clear a)) st)
  | ONoClear =>
      inr (with_ns (λ a, mkArgs (song_list a) (playlist a) (force a) (quiet a) (wd a) (trim a) (download a) false) st)
  | ONoTrim =>
      if seen_nodownload st then inl (NotAllowedWith (action_name ONoTrim) (action_name ONoDownload))
      else inr (mkPState
                  (mkArgs (song_list a) (playlist a) (force a) (quiet a) (wd a) false (download a) (clear a))
                  true (seen_nodownload st) (extras st) (unnamed st))
  | ONoDownload =>
      if seen_notrim st then inl (NotAllowedWith (action_name ONoDownload) (action_name ONoTrim))
      else inr (mkPState
                  (mkArgs (song_list a) (playlist a) (force a) (quiet a) (wd a) (trim a) false (clear a))
                  (seen_notrim st) true (extras st) (unnamed st))
  | OHelp | OSongList => inr st
  end.

(** [_get_values] for the one argument string of [--song-list]: the
    first [--] is removed from the argument strings before they are
    counted, so the string [--] leaves none ([None]: the value is the
    empty list); every other string is the value. *)
Definition get_values (arg_string : string) : option string :=
  if String.eqb arg_string "--" then None else Some arg_string.

(** [take_action] for [--song-list]. *)
Definition store_song_list (value : option string) (st : PState) : PState :=
  match value with
  | Some v =>
      mkPState
        (let a := ns st in
         mkArgs v (playlist a) (force a) (quiet a) (wd a) (trim a) (download a) (clear a))
        (seen_notrim st) (seen_nodownload st) (extras st) false
  | None =>
      mkPState (ns st) (seen_notrim st) (seen_nodownload st) (extras st) true
  end.

(** Single-dash options written in one string, [-hh]: every further
    letter has to be an option again.  [None]: all of them were; [Some e]:
    the text at which argparse gives up. *)
Fixpoint cluster (e : string) : option string :=
  match e with
  | EmptyString => None
  | String c e' =>
      match lookup_option (String "-" (String c EmptyString)) with
      | Some _ => cluster e'
      | None => Some e
      end
  end.

Inductive Parse :=
| Parsed (a : Args)
| ParsedUnnamed (a : Args)  (* as [Parsed], but [song_list] is [[]] *)
| HelpExit                  (* help printed, [exit(0)] *)
| UsageError (e : ArgError). (* usage and message printed, [exit(2)] *)

(** The second pass. *)
Fixpoint consume (items : list (string * Class)) (st : PState) : Parse :=
  match items with
  | [] =>
      match extras st with
      | [] => if unnamed st then ParsedUnnamed (ns st) else Parsed (ns st)
      | _ :: _ => UsageError (Unrecognized (extras st))
      end
  | (s, CArg) :: rest | (s, CMarker) :: rest | (s, CUnknown) :: rest =>
      consume rest (add_extra s st)
  | (_, COption (option_string, OSongList, explicit_arg)) :: rest =>
      match explicit_arg with
      | Some v => consume rest (store_song_list (get_values v) st)
      | None =>
          match rest with
          | (v, CArg) :: rest' => consume rest' (store_song_list (get_values v) st)
          | _ => UsageError (ExpectedOneArgument (action_name OSongList))
          end
      end
  | (_, COption (option_string, OHelp, explicit_arg)) :: rest =>
      match explicit_arg with
      | None => HelpExit
      | Some e =>
          if String.eqb option_string "-h" && negb (String.eqb e "") then
            match cluster e with
            | None => HelpExit
            | Some e' => UsageError (IgnoredExplicit (action_name OHelp) e')
            end
          else UsageError (IgnoredExplicit (action_name OHelp) e)
      end
  | (_, COption (option_string, o, explicit_arg)) :: rest =>
      match explicit_arg with
      | Some e => UsageError (IgnoredExplicit (action_name o) e)
      | None =>
          match take_flag o st with
          | inl e => UsageError e
          | inr st' => consume rest st'
          end
      end
  end.

(** [parser.parse_args()] on [sys.argv[1:]]. *)
Definition parse_args (argv : list string) : Parse :=
  match classify argv with
  | inl e => UsageError e
  | inr items => consume items initial
  end.

End Argparse.

(** ** The whole program *)

Inductive Outcome :=
| Usage (e : Argparse.ArgError)   (* rejected by the parser *)
| Help                            (* [-h] *)
| Ran (status : Z) (w : World)    (* the [try] block was entered and left *)
| Died (w : World).               (* an exception nothing catches: traceback, status 1 *)

Definition exit_status (o : Outcome) : Z :=
  match o with
  | Usage _ => 2
  | Help => 0
  | Ran s _ => s
  | Died _ => 1
  end.

(** The run when [args.song_list] is the empty list.  With the download
    off nothing looks at it.  With the download on, [check_dir] changes
    the directory and calls [os.path.isfile([])], which raises
    [TypeError] before any look-up; the [try] block catches only
    [KeyboardInterrupt]. *)
Definition script_unnamed (E : Env) (a : Args) (w : World) : Outcome :=
  if download a then
    match ((if negb (wd a) then chdir (downloads_dir E) else mret tt) ;; checkpoint) w with
    | (Ok _, w') => Died w'
    | (Raise _, w') => Ran 0 (add_out msg_interrupted w')
    end
  else let '(s, w') := script E a w in Ran s w'.

Definition main (E : Env) (argv : list string) (w : World) : Outcome :=
  match Argparse.parse_args argv with
  | Argparse.Parsed a => let '(s, w') := script E a w in Ran s w'
  | Argparse.ParsedUnnamed a => script_unnamed E a w
  | Argparse.HelpExit => Help
  | Argparse.UsageError e => Usage e
  end.

(** ** Vocabulary of the properties *)

(** A world in which no interrupt is pending. *)
Definition calm (c : string) (m : FS) (o e : list string) (l : list Event) : World :=
  mkWorld c m o e l None.

(** The world after the directory change of [check_dir]. *)
Definition entered (E : Env) (a : Args) (w : World) : World :=
  if wd a then w
  else set_cwd (downloads_dir E) (add_log (EChdir (downloads_dir E)) w).

(** The path at which a run looks for its song list. *)
Definition list_path (E : Env) (a : Args) (w : World) : string :=
  resolve (cwd (entered E a w)) (song_list a).

(** The same options, with [--wd] given. *)
Definition in_place (a : Args) : Args :=
  mkArgs (song_list a) (playlist a) (force a) (quiet a) true (trim a) (download a) (clear a).

(** The name [NamedTemporaryFile] hands out over files [m]. *)
Definition tmp_of (E : Env) (m : FS) : string := mkstemp E m +:+ ".mp3".

(** The command [argv], whether it runs to its end or is killed, leaves
    the file at [p] as it is. *)
Definition spared (E : Env) (p : string) (argv : list string) : Prop :=
  ∀ d (m : FS),
    (proc E argv d m).1 !! p = m !! p ∧ proc_killed E argv d m !! p = m !! p.

(** A [sox] run, whether it runs to its end or is killed, changes no
    file but its output file, the second of its arguments. *)
Definition sox_writes_output_only (E : Env) : Prop :=
  ∀ inp outp effects d (m : FS) q,
    q ≠ resolve d outp →
    (proc E ("sox" :: inp :: outp :: effects) d m).1 !! q = m !! q ∧
    proc_killed E ("sox" :: inp :: outp :: effects) d m !! q = m !! q.

(** None of the [sox] runs of a trimmer whose temporary file is [tmp]
    changes the file at [p]. *)
Definition trim_spares (E : Env) (tmp p : string) : Prop :=
  ∀ f, Str.endswith f ".mp3" = true →
    spared E p (sox_end f tmp) ∧ spared E p (sox_start f tmp).

(** [m] leaves the file at [p] as it is. *)
Definition keeps {A} (p : string) (m : M A) : Prop :=
  ∀ w, fs (m w).2 !! p = fs w !! p.

(** The entries the trimmer works on. *)
Definition mp3s (names : list string) : list string :=
  List.filter (λ f, Str.endswith f ".mp3") names.

(** The two [sox] runs per entry, in the order they are issued. *)
Definition sox_calls (tmp : string) (names : list string) : list Event :=
  List.flat_map (λ f, [ESpawn (sox_end f tmp); ESpawn (sox_start f tmp)]) (mp3s names).

(** The report for one file, from the two return codes: a warning if
    either is non-zero, else a notice unless quiet. *)
Definition report (quiet : bool) (f : string) (ret1 ret2 : Z) : list string :=
  if negb (ret1 =? 0) || negb (ret2 =? 0) then [msg_trim_failed f]
  else if quiet then [] else [msg_trimmed f].

(** The two return codes of every entry one loop works on, and the files
    its tool runs leave. *)
Fixpoint trim_results (E : Env) (tmp c : string) (m : FS) (names : list string)
  : list (string * Z * Z) * FS :=
  match names with
  | [] => ([], m)
  | f :: rest =>
      if Str.endswith f ".mp3" then
        let r1 := proc E (sox_end f tmp) c m in
        let r2 := proc E (sox_start f tmp) c r1.1 in
        let '(rs, m') := trim_results E tmp c r2.1 rest in
        ((f, r1.2, r2.2) :: rs, m')
      else trim_results E tmp c m rest
  end.

Definition reports (quiet : bool) (rs : list (string * Z * Z)) : list string :=
  List.flat_map (λ r, report quiet r.1.1 r.1.2 r.2) rs.

(** Every entry the trimmer reports as failed holds afterwards what it
    held before. *)
Definition failed_trims_left_alone (E : Env) (quiet : bool) (w : World) : Prop :=
  ∀ f, msg_trim_failed f ∈ out (trim_mp3s E quiet w).2 →
       fs (trim_mp3s E quiet w).2 !! resolve (cwd w) f = fs w !! resolve (cwd w) f.

(** The operating-system calls a run with options [a] may issue once it
    works in directory [d]. *)
Definition allowed (a : Args) (d : string) (e : Event) : Prop :=
  match e with
  | EChdir _ => False
  | EIsFile p => download a = true ∧ p = resolve d (song_list a)
  | ESpawn argv =>
      (download a = true ∧
       argv = youtube_dl (song_list a) (quiet a) (force a) (playlist a)) ∨
      (trim a = true ∧ ∃ f tmp, argv = sox_end f tmp ∨ argv = sox_start f tmp)
  | EOpenW p => download a = true ∧ clear a = true ∧ p = resolve d (song_list a)
  | EMkTemp _ | EUnlink _ => trim a = true
  | EListDir x => trim a = true ∧ x = d
  end.

(** [m], started in directory [d], stays there and issues only calls
    that satisfy [P]. *)
Definition emits_in {A} (d : string) (P : Event → Prop) (m : M A) : Prop :=
  ∀ w, cwd w = d →
    cwd (m w).2 = d ∧ ∃ evs, log (m w).2 = log w ++ evs ∧ Forall P evs.


(** Notions about the second pass of the parser. *)
Module ArgparseSteps.
Import Argparse.

(** One step of the second pass that does not end the parse. *)
Inductive step (s : string) (c : Class) (rest : list (string * Class)) (st : PState)
  : list (string * Class) → PState → Prop :=
| step_extra :
    match c with COption _ => False | _ => True end →
    step s c rest st rest (add_extra s st)
| step_store_explicit os v :
    c = COption (os, OSongList, Some v) →
    step s c rest st rest (store_song_list (get_values v) st)
| step_store_next os v rest' :
    c = COption (os, OSongList, None) → rest = (v, CArg) :: rest' →
    step s c rest st rest' (store_song_list (get_values v) st)
| step_flag os o st' :
    c = COption (os, o, None) → o ≠ OHelp → o ≠ OSongList →
    take_flag o st = inr st' →
    step s c rest st rest st'.

(** The members of the exclusive group seen so far are the ones whose
    destination has left its default, and they are not both seen. *)
Definition exclusive (st : PState) : Prop :=
  seen_notrim st = negb (trim (ns st)) ∧
  seen_nodownload st = negb (download (ns st)) ∧
  (trim (ns st) = true ∨ download (ns st) = true).

(** The parse [r] ends with the namespace [a], with or without a string
    in [song_list]. *)
Definition returns (r : Parse) (a : Args) : Prop :=
  r = Parsed a ∨ r = ParsedUnnamed a.

(** [s] is a way of writing the flag [o]: its option string, or an
    abbreviation argparse accepts for it. *)
Definition spelled (o : Opt) (s : string) : Prop :=
  ∃ option_string, parse_optional s = inr (Some (Some (option_string, o, None))).

(** [s] begins like the help option, [-h] or [--h]. *)
Definition asks_help (s : string) : bool :=
  Str.startswith "-h" s || Str.startswith "--h" s.

End ArgparseSteps.

(** ** Vocabulary of further properties *)

(** Everything [m] prints satisfies [P]. *)
Definition prints {A} (P : string → Prop) (m : M A) : Prop :=
  ∀ w, ∃ o, out (m w).2 = out w ++ o ∧ Forall P o.


(** The lines a run with options [a] may print. *)
Definition may_print (a : Args) (s : string) : Prop :=
  (∃ f, s = msg_trim_failed f) ∨
  (quiet a = false ∧ (s = msg_cleared ∨ ∃ f, s = msg_trimmed f)).

(** Command lines made of the seven flags, spelled in full. *)
Module Flags.
Import Argparse.

Definition flag_strings : list string :=
  ["--playlist"; "--force"; "--quiet"; "--wd"; "--notrim"; "--nodownload"; "--noclear"].

(** [s in argv] *)
Definition has (s : string) (argv : list string) : bool :=
  existsb (String.eqb s) argv.

(** The namespace a command line of flags stands for: every destination
    is set by the presence of its own flag. *)
Definition flags_of (argv : list string) : Args :=
  mkArgs "song-list.txt"
         (has "--playlist" argv) (has "--force" argv) (has "--quiet" argv)
         (has "--wd" argv)
         (negb (has "--notrim" argv)) (negb (has "--nodownload" argv))
         (negb (has "--noclear" argv)).

(** The options of a namespace switched by the flags of [argv]. *)
Definition switched (argv : list string) (a : Args) : Args :=
  mkArgs (song_list a)
         (playlist a || has "--playlist" argv) (force a || has "--force" argv)
         (quiet a || has "--quiet" argv) (wd a || has "--wd" argv)
         (trim a && negb (has "--notrim" argv))
         (download a && negb (has "--nodownload" argv))
         (clear a && negb (has "--noclear" argv)).

(** What the first pass makes of a flag. *)
Definition flag_item (s : string) : string * Class :=
  match lookup_option s with
  | Some p => (s, COption (p, None))
  | None => (s, CUnknown)
  end.

(** The state of the second pass agrees with its namespace. *)
Definition tidy (st : PState) : Prop :=
  seen_notrim st = negb (trim (ns st)) ∧
  seen_nodownload st = negb (download (ns st)) ∧
  (trim (ns st) = true ∨ download (ns st) = true) ∧
  extras st = [] ∧ unnamed st = false.

End Flags.

(** ** A test bench: two toy tools and a home directory *)

Module Demo.

(** The toy tools write audio only, and only under a name in [.mp3]. *)
Definition write_audio (q c : string) (m : FS) : FS :=
  if Str.endswith q ".mp3" then <[q := c]> m else m.

Definition is_audio (c : string) : bool := Str.startswith "ID3" c.

(** The argument that follows [flag]. *)
Fixpoint after (flag : string) (args : list string) : option string :=
  match args with
  | a :: ((b :: _) as rest) => if String.eqb a flag then Some b else after flag rest
  | _ => None
  end.

(** A toy [sox] that fails on input that is not audio before it opens its
    output, and a toy [youtube-dl] that fetches one track when the list
    holds a URL. *)
Definition sox (args : list string) (d : string) (m : FS) : FS * Z :=
  match args with
  | inp :: outp :: _ =>
      match m !! resolve d inp with
      | Some c =>
          if is_audio c then (write_audio (resolve d outp) (c +:+ "'") m, 0)
          else (m, 2)
      | None => (m, 2)
      end
  | _ => (m, 1)
  end.

Definition youtube_dl (args : list string) (d : string) (m : FS) : FS * Z :=
  match after "-a" args with
  | Some lst =>
      match m !! resolve d lst with
      | Some c =>
          if Str.startswith "http" c
          then (write_audio (resolve d "Track.mp3") "ID3 track" m, 0)
          else if String.eqb c "" then (m, 0) else (m, 1)
      | None => (m, 1)
      end
  | None => (m, 1)
  end.

Definition tools (argv : list string) (d : string) (m : FS) : FS * Z :=
  match argv with
  | tool :: args =>
      if String.eqb tool "sox" then sox args d m
      else if String.eqb tool "youtube-dl" then youtube_dl args d m
      else (m, 127)
  | [] => (m, 127)
  end.

Definition longest (m : FS) : nat :=
  foldr (λ kv n, Nat.max (String.length kv.1) n) 0%nat (map_to_list m).

Fixpoint pad (n : nat) : string :=
  match n with
  | O => ""
  | S n => String "x" (pad n)
  end.

(** A temporary name longer than every name in use. *)
Definition stem (m : FS) : string := "/tmp/tmp" +:+ pad (longest m).

Definition E : Env := mkEnv "/home/u" tools (λ _ _ m, m) stem.

Definition files : FS :=
  list_to_map
    [("/home/u/Downloads/song-list.txt", "https://example.org/a");
     ("/home/u/Downloads/a.mp3", "ID3 a");
     ("/home/u/Downloads/b.mp3", "junk");
     ("/home/u/Downloads/notes.txt", "n");
     ("/home/u/Downloads/sub/c.mp3", "ID3 c");
     ("/work/broken.txt", "not a link")].

(** Started from [/work], nothing printed yet, no Ctrl-C on its way. *)
Definition w0 : World := mkWorld "/work" files [] [] [] None.

(** The same, started in the downloads directory. *)
Definition w1 : World := mkWorld "/home/u/Downloads" files [] [] [] None.

(** The same, with a Ctrl-C that arrives at the fifth call. *)
Definition w_sigint : World := set_sigint (Some 4%nat) w0.

(** Command lines: [--wd]; [--wd --song-list broken.txt]; [--noclear];
    [--nodownload --quiet]. *)
Definition a_here : Args := in_place Argparse.defaults.
Definition a_broken : Args := mkArgs "broken.txt" false false false true true true true.
Definition a_noclear : Args := mkArgs "song-list.txt" false false false false true true false.
Definition a_trim_only : Args := mkArgs "song-list.txt" false false true false true false true.

(** Started in the directory of temporary files, which holds no audio. *)
Definition w_tmp : World := mkWorld "/tmp" files [] [] [] None.


(** [--wd --nodownload --song-list a.mp3]: the list named is a track. *)
Definition a_list_audio : Args := mkArgs "a.mp3" false false false true true false true.

End Demo.

(** * Properties *)

(** ** Strings *)

Lemma length_app (s t : string) :
  String.length (s +:+ t) = (String.length s + String.length t)%nat.
Proof. induction s as [|a s IH]; simpl; [reflexivity | by rewrite IH]. Qed.

Lemma drop_app (x p : string) (n : nat) :
  Str.drop (String.length x + n) (x +:+ p) = Str.drop n p.
Proof. induction x as [|a x IH]; [reflexivity | exact IH]. Qed.

Lemma endswith_app (x p suf : string) :
  Str.endswith p suf = true → Str.endswith (x +:+ p) suf = true.
Proof.
  unfold Str.endswith. intros [Hle Heq]%andb_true_iff. apply Nat.leb_le in Hle.
  rewrite length_app. apply andb_true_iff. split; [apply Nat.leb_le; lia|].
  replace (String.length x + String.length p - String.length suf)%nat
    with (String.length x + (String.length p - String.length suf))%nat by lia.
  by rewrite drop_app.
Qed.

(** A name that ends in [suf] resolves to a path that ends in [suf]. *)
Lemma endswith_resolve (d p suf : string) :
  Str.endswith p suf = true → Str.endswith (resolve d p) suf = true.
Proof.
  intros H. unfold resolve. destruct (Str.startswith "/" p); [exact H|].
  by do 2 apply endswith_app.
Qed.

Lemma msg_cleared_not_report quiet f r1 r2 : msg_cleared ∉ report quiet f r1 r2.
Proof.
  unfold report. intros H.
  destruct (negb (r1 =? 0) || negb (r2 =? 0)); [|destruct quiet].
  - apply list_elem_of_singleton in H. discriminate H.
  - by apply not_elem_of_nil in H.
  - apply list_elem_of_singleton in H. discriminate H.
Qed.

Lemma msg_cleared_not_reports quiet rs : msg_cleared ∉ reports quiet rs.
Proof.
  unfold reports. induction rs as [|r rs IH]; simpl.
  - apply not_elem_of_nil.
  - intros [H|H]%elem_of_app; [by apply msg_cleared_not_report in H | by apply IH].
Qed.

(** ** The directory listing *)

Lemma listdir_spec d (m : FS) f :
  f ∈ listdir d m ↔ ∃ k, is_Some (m !! k) ∧ entry_under d k = Some f.
Proof.
  unfold listdir. rewrite elem_of_remove_dups, list_elem_of_omap. split.
  - intros (k & Hk & Hf). exists k. split; [|done].
    apply list_elem_of_fmap in Hk as ([k' v] & -> & Hkv).
    apply elem_of_map_to_list in Hkv. simpl. eauto.
  - intros (k & [v Hv] & Hf). exists k. split; [|done].
    apply list_elem_of_fmap. exists (k, v). split; [done|].
    by apply elem_of_map_to_list.
Qed.

(** ** Runs no Ctrl-C interferes with *)

Section Uninterrupted.

Variable E : Env.

Lemma calm_world w : sigint w = None → w = calm (cwd w) (fs w) (out w) (err w) (log w).
Proof. destruct w; simpl; intros ->; reflexivity. Qed.

Lemma chdir_calm d c m o e l :
  chdir d (calm c m o e l) = (Ok tt, calm d m o e (l ++ [EChdir d])).
Proof. reflexivity. Qed.

Lemma isfile_calm p c m o e l :
  isfile p (calm c m o e l) =
  (Ok (is_file c p m), calm c m o e (l ++ [EIsFile (resolve c p)])).
Proof. reflexivity. Qed.

Lemma subprocess_run_calm argv c m o e l :
  subprocess_run E argv (calm c m o e l) =
  (Ok (proc E argv c m).2, calm c (proc E argv c m).1 o e (l ++ [ESpawn argv])).
Proof. unfold subprocess_run, calm; simpl. destruct (proc E argv c m); reflexivity. Qed.

Lemma write_file_calm p s c m o e l :
  write_file p s (calm c m o e l) =
  (Ok tt, calm c (<[resolve c p := s]> m) o e (l ++ [EOpenW (resolve c p)])).
Proof. reflexivity. Qed.

Lemma print_calm s c m o e l :
  print s (calm c m o e l) = (Ok tt, calm c m (o ++ [s]) e l).
Proof. reflexivity. Qed.

Lemma NamedTemporaryFile_calm c m o e l :
  NamedTemporaryFile E (calm c m o e l) =
  (Ok (tmp_of E m), calm c (<[tmp_of E m := ""]> m) o e (l ++ [EMkTemp (tmp_of E m)])).
Proof. reflexivity. Qed.

Lemma os_listdir_calm c m o e l :
  os_listdir (calm c m o e l) = (Ok (listdir c m), calm c m o e (l ++ [EListDir c])).
Proof. reflexivity. Qed.

Lemma trim_one_calm quiet tmp f c m o e l :
  let r1 := proc E (sox_end f tmp) c m in
  let r2 := proc E (sox_start f tmp) c r1.1 in
  trim_one E quiet tmp f (calm c m o e l) =
  (Ok tt, calm c r2.1 (o ++ report quiet f r1.2 r2.2) e
             (l ++ [ESpawn (sox_end f tmp); ESpawn (sox_start f tmp)])).
Proof.
  intros r1 r2. unfold trim_one.
  unfold mbind, M_bind. rewrite subprocess_run_calm. fold r1.
  rewrite subprocess_run_calm. fold r2.
  unfold report. rewrite <- app_assoc. simpl.
  destruct (negb (r1.2 =? 0) || negb (r2.2 =? 0)).
  - rewrite print_calm. reflexivity.
  - destruct quiet; simpl.
    + rewrite app_nil_r. reflexivity.
    + rewrite print_calm. reflexivity.
Qed.

Lemma trim_loop_calm quiet tmp names : ∀ c m o e l,
  trim_loop E quiet tmp names (calm c m o e l) =
  (Ok tt, calm c (trim_results E tmp c m names).2
             (o ++ reports quiet (trim_results E tmp c m names).1) e
             (l ++ sox_calls tmp names)).
Proof.
  induction names as [|f rest IH]; intros c m o e l.
  - simpl. unfold sox_calls, reports. simpl. rewrite !app_nil_r. reflexivity.
  - simpl. unfold mbind, M_bind.
    unfold sox_calls, mp3s. simpl.
    destruct (Str.endswith f ".mp3"); simpl.
    + rewrite trim_one_calm. rewrite IH.
      destruct (trim_results E tmp c _ rest) as [rs m'] eqn:Hr. simpl.
      unfold reports. simpl. rewrite <- !app_assoc. reflexivity.
    + apply IH.
Qed.

Lemma trim_results_names tmp names : ∀ c m,
  (λ r : string * Z * Z, r.1.1) <$> (trim_results E tmp c m names).1 = mp3s names.
Proof.
  induction names as [|f rest IH]; intros c m; simpl; [reflexivity|].
  destruct (Str.endswith f ".mp3"); simpl.
  - specialize (IH c (proc E (sox_start f tmp) c (proc E (sox_end f tmp) c m).1).1).
    destruct (trim_results E tmp c _ rest) as [rs m']. simpl in *. f_equal. exact IH.
  - apply IH.
Qed.

(** What the tool runs of one loop leave at a path they do not change. *)
Lemma trim_results_frame p tmp names : ∀ c m,
  trim_spares E tmp p → (trim_results E tmp c m names).2 !! p = m !! p.
Proof.
  induction names as [|f rest IH]; intros c m Hp; simpl; [reflexivity|].
  destruct (Str.endswith f ".mp3") eqn:Hf; simpl.
  - specialize (IH c (proc E (sox_start f tmp) c (proc E (sox_end f tmp) c m).1).1 Hp).
    destruct (trim_results E tmp c _ rest) as [rs m']. simpl in *.
    destruct (Hp f Hf) as [H1 H2].
    rewrite IH. rewrite (proj1 (H2 _ _)). apply H1.
  - by apply IH.
Qed.

Lemma trim_mp3s_calm quiet c m o e l :
  let tmp := tmp_of E m in
  let names := listdir c (<[tmp := ""]> m) in
  let r := trim_results E tmp c (<[tmp := ""]> m) names in
  trim_mp3s E quiet (calm c m o e l) =
  (Ok tt, calm c (delete tmp r.2) (o ++ reports quiet r.1) e
             (l ++ [EMkTemp tmp; EListDir c] ++ sox_calls tmp names ++ [EUnlink tmp])).
Proof.
  intros tmp names r. unfold trim_mp3s, finally.
  unfold mbind at 1; unfold M_bind at 1. rewrite NamedTemporaryFile_calm.
  unfold mbind, M_bind. rewrite os_listdir_calm, trim_loop_calm.
  fold tmp names r. unfold close_tmp, calm, set_fs, add_log. simpl.
  rewrite <- !app_assoc. reflexivity.
Qed.

(** The trimmer leaves a file as it found it that is not its temporary
    file and that its [sox] runs do not change. *)
Lemma trim_mp3s_frame quiet p c m o e l :
  tmp_of E m ≠ p → trim_spares E (tmp_of E m) p →
  fs (trim_mp3s E quiet (calm c m o e l)).2 !! p = m !! p.
Proof.
  intros Hne Hp. rewrite trim_mp3s_calm. simpl.
  rewrite lookup_delete_ne by done.
  rewrite trim_results_frame by done. by rewrite lookup_insert_ne.
Qed.

(** The three stages of [steps], one after the other. *)
Lemma check_dir_calm (a : Args) c m o e l :
  let w1 := entered E a (calm c m o e l) in
  check_dir E (wd a) (song_list a) (download a) (calm c m o e l) =
  if download a then
    if is_file (cwd w1) (song_list a) m
    then (Ok tt, add_log (EIsFile (resolve (cwd w1) (song_list a))) w1)
    else (Raise (SystemExit (msg_no_list (song_list a))),
          add_log (EIsFile (resolve (cwd w1) (song_list a))) w1)
  else (Ok tt, w1).
Proof.
  unfold check_dir, entered. destruct (wd a), (download a); simpl; try reflexivity.
  - unfold mbind, M_bind, mret, M_ret. simpl. by destruct (is_file c (song_list a) m).
  - unfold mbind, M_bind, mret, M_ret. simpl.
    by destruct (is_file (downloads_dir E) (song_list a) m).
Qed.

End Uninterrupted.

(** ** The song list is missing *)


(** ** What a run may do, Ctrl-C or not *)

Section Footprint.

Context {A B : Type}.
Variable d : string.
Variable P : Event → Prop.

Lemma emits_ret (a : A) : emits_in d P (mret a : M A).
Proof. intros w Hw. split; [done|]. exists []. by rewrite app_nil_r. Qed.

Lemma emits_raise (e : Exn) : emits_in d P (raise e : M A).
Proof. intros w Hw. split; [done|]. exists []. by rewrite app_nil_r. Qed.

Lemma emits_bind (m : M A) (k : A → M B) :
  emits_in d P m → (∀ a, emits_in d P (k a)) → emits_in d P (m ≫= k).
Proof.
  intros Hm Hk w Hw. unfold mbind, M_bind.
  specialize (Hm w Hw). destruct (m w) as [[a|e] w1]; simpl in *.
  - destruct Hm as (Hc & evs1 & Hl1 & HP1).
    destruct (Hk a w1 Hc) as (Hc2 & evs2 & Hl2 & HP2).
    split; [done|]. exists (evs1 ++ evs2). rewrite Hl2, Hl1, app_assoc.
    split; [done|]. by apply Forall_app.
  - exact Hm.
Qed.

Lemma emits_finally (m : M A) (fin : World → World) (e : Event) :
  emits_in d P m → P e →
  (∀ w, cwd (fin w) = cwd w ∧ log (fin w) = log w ++ [e]) →
  emits_in d P (finally m fin).
Proof.
  intros Hm He Hfin w Hw. unfold finally.
  specialize (Hm w Hw). destruct (m w) as [r w1]; simpl in *.
  destruct Hm as (Hc & evs & Hl & HP). destruct (Hfin w1) as [Hc1 Hl1].
  split; [congruence|]. exists (evs ++ [e]). rewrite Hl1, Hl, app_assoc.
  split; [done|]. apply Forall_app. split; [done|]. by constructor.
Qed.

End Footprint.

Section FootprintOfPrimitives.

Variable E : Env.
Variable d : string.
Variable P : Event → Prop.

Ltac by_cases :=
  intros [c m o e l [[|n]|]] Hc; simpl in *; subst;
  (split; [reflexivity|]);
  first [ by (exists []; rewrite app_nil_r)
        | by (eexists [_]; split; [reflexivity | by constructor]) ].

Lemma emits_isfile p : P (EIsFile (resolve d p)) → emits_in d P (isfile p).
Proof. intros HP. by_cases. Qed.

Lemma emits_print s : emits_in d P (print s).
Proof. by_cases. Qed.

Lemma emits_write_file p s : P (EOpenW (resolve d p)) → emits_in d P (write_file p s).
Proof. intros HP. by_cases. Qed.

Lemma emits_os_listdir : P (EListDir d) → emits_in d P os_listdir.
Proof. intros HP. by_cases. Qed.

Lemma emits_NamedTemporaryFile : (∀ q, P (EMkTemp q)) → emits_in d P (NamedTemporaryFile E).
Proof. intros HP. by_cases. Qed.

Lemma emits_subprocess_run argv : P (ESpawn argv) → emits_in d P (subprocess_run E argv).
Proof.
  intros HP [c m o e l s] Hc. unfold subprocess_run. simpl in *. subst.
  destruct s as [[|n]|]; simpl; try destruct (proc E argv d m); simpl;
    (split; [reflexivity|]); (eexists [_]; split; [reflexivity | by constructor]).
Qed.

Lemma emits_trim_one quiet tmp f :
  P (ESpawn (sox_end f tmp)) → P (ESpawn (sox_start f tmp)) →
  emits_in d P (trim_one E quiet tmp f).
Proof.
  intros H1 H2. unfold trim_one.
  apply emits_bind; [by apply emits_subprocess_run|]. intros ret1.
  apply emits_bind; [by apply emits_subprocess_run|]. intros ret2.
  destruct (negb (ret1 =? 0) || negb (ret2 =? 0)); [apply emits_print|].
  destruct (negb quiet); [apply emits_print | apply emits_ret].
Qed.

Lemma emits_trim_loop quiet tmp names :
  (∀ f, P (ESpawn (sox_end f tmp)) ∧ P (ESpawn (sox_start f tmp))) →
  emits_in d P (trim_loop E quiet tmp names).
Proof.
  intros HP. induction names as [|f rest IH]; simpl; [apply emits_ret|].
  apply emits_bind; [|intros _; exact IH].
  destruct (negb (Str.endswith f ".mp3")); [apply emits_ret|].
  apply emits_trim_one; apply HP.
Qed.

Lemma emits_trim_mp3s quiet :
  (∀ f tmp, P (ESpawn (sox_end f tmp)) ∧ P (ESpawn (sox_start f tmp))) →
  (∀ q, P (EMkTemp q)) → (∀ q, P (EUnlink q)) → P (EListDir d) →
  emits_in d P (trim_mp3s E quiet).
Proof.
  intros Hsox Hmk Hun Hls. unfold trim_mp3s.
  apply emits_bind; [by apply emits_NamedTemporaryFile|]. intros tmp.
  apply emits_finally with (e := EUnlink tmp); [|apply Hun|by intros []].
  apply emits_bind; [by apply emits_os_listdir|]. intros names.
  apply emits_trim_loop. intros f. apply Hsox.
Qed.

End FootprintOfPrimitives.

(** With [--wd] a run stays where it is and issues only the calls its
    options allow. *)
Lemma steps_in_place_footprint (E : Env) (a : Args) (d : string) :
  wd a = true → emits_in d (allowed a d) (steps E a).
Proof.
  intros Hwd. unfold steps, check_dir. rewrite Hwd. simpl.
  apply emits_bind.
  { apply emits_bind; [apply emits_ret|]. intros _.
    destruct (download a) eqn:Hd; [|apply emits_ret].
    apply emits_bind; [by apply emits_isfile|]. intros present.
    destruct (negb present); [apply emits_raise | apply emits_ret]. }
  intros _. apply emits_bind.
  { destruct (download a) eqn:Hd; [|apply emits_ret].
    apply emits_bind.
    { unfold download_songs. apply emits_bind.
      - apply emits_subprocess_run. simpl. by left.
      - intros rc. destruct (negb (rc =? 0)); [apply emits_raise | apply emits_ret]. }
    intros _. destruct (clear a) eqn:Hc; [|apply emits_ret].
    apply emits_bind; [by apply emits_write_file|]. intros _.
    destruct (negb (quiet a)); [apply emits_print | apply emits_ret]. }
  intros _. destruct (trim a) eqn:Ht; [|apply emits_ret].
  apply emits_trim_mp3s; simpl; try done.
  intros f tmp. split; right; (split; [done|]); exists f, tmp; eauto.
Qed.

(** Without [--wd] a run is the directory change followed by the run
    with [--wd]. *)
Lemma steps_enter (E : Env) (a : Args) (w : World) :
  wd a = false →
  steps E a w = (chdir (downloads_dir E) ;; steps E (in_place a)) w.
Proof.
  intros Hwd. unfold steps, check_dir, in_place. rewrite Hwd. simpl.
  unfold mbind, M_bind, mret, M_ret.
  destruct (chdir (downloads_dir E) w) as [[[]|x] w1]; reflexivity.
Qed.

Lemma allowed_in_place a d e : allowed (in_place a) d e ↔ allowed a d e.
Proof. destruct e; reflexivity. Qed.

(** The calls of any run: the directory change first, unless [--wd] is
    given, then only calls the options allow, made in the directory the
    run works in. *)
Lemma steps_footprint (E : Env) (a : Args) (w : World) :
  ∃ evs,
    log (steps E a w).2 = log w ++ evs ∧
    if wd a then Forall (allowed a (cwd w)) evs
    else evs = [] ∨
         ∃ evs', evs = EChdir (downloads_dir E) :: evs' ∧
                 Forall (allowed a (downloads_dir E)) evs'.
Proof.
  destruct (wd a) eqn:Hwd.
  - destruct (steps_in_place_footprint E a (cwd w) Hwd w eq_refl) as (_ & evs & Hl & HP).
    eauto.
  - rewrite steps_enter by done. unfold mbind, M_bind.
    destruct w as [c m o e l [[|n]|]]; simpl.
    + exists []. rewrite app_nil_r. eauto.
    + match goal with |- context [steps E (in_place a) ?w1] =>
        destruct (steps_in_place_footprint E (in_place a) (downloads_dir E) eq_refl w1 eq_refl)
          as (_ & evs & Hl & HP) end.
      exists (EChdir (downloads_dir E) :: evs). simpl in Hl.
      rewrite Hl, <- app_assoc. split; [done|]. right. exists evs. split; [done|].
      eapply Forall_impl; [exact HP|]. intros x. apply allowed_in_place.
    + match goal with |- context [steps E (in_place a) ?w1] =>
        destruct (steps_in_place_footprint E (in_place a) (downloads_dir E) eq_refl w1 eq_refl)
          as (_ & evs & Hl & HP) end.
      exists (EChdir (downloads_dir E) :: evs). simpl in Hl.
      rewrite Hl, <- app_assoc. split; [done|]. right. exists evs. split; [done|].
      eapply Forall_impl; [exact HP|]. intros x. apply allowed_in_place.
Qed.

(** ** Where a Ctrl-C ends up *)

Section Delivery.

Context {A B : Type}.





End Delivery.

Section DeliveryOfPrimitives.

Variable E : Env.

Ltac by_cases :=
  intros [c m o e l [[|n]|]]; simpl;
  first [ by (left; split)
        | by (right; split; [discriminate | eauto])
        | by (split; [|discriminate]) ].










End DeliveryOfPrimitives.

(** ** The stages of an uninterrupted run *)

Section Stages.

Variable E : Env.

Lemma entered_calm a c m o e l :
  entered E a (calm c m o e l) =
  calm (if wd a then c else downloads_dir E) m o e
       (l ++ if wd a then [] else [EChdir (downloads_dir E)]).
Proof. unfold entered. destruct (wd a); [by rewrite app_nil_r | reflexivity]. Qed.

(** The download and the clearing of the list. *)
Lemma fetch_calm a c m o e l :
  let cmd := youtube_dl (song_list a) (quiet a) (force a) (playlist a) in
  let r := proc E cmd c m in
  (download_songs E (song_list a) (quiet a) (force a) (playlist a) ;;
   if clear a then
     (write_file (song_list a) "" ;;
      if negb (quiet a) then print msg_cleared else mret tt)
   else mret tt) (calm c m o e l) =
  if negb (r.2 =? 0)
  then (Raise (SystemExit msg_download_failed), calm c r.1 o e (l ++ [ESpawn cmd]))
  else (Ok tt,
        calm c (if clear a then <[resolve c (song_list a) := ""]> r.1 else r.1)
             (o ++ if clear a then if quiet a then [] else [msg_cleared] else []) e
             (l ++ [ESpawn cmd] ++
                   if clear a then [EOpenW (resolve c (song_list a))] else [])).
Proof.
  intros cmd r. unfold download_songs.
  unfold mbind at 1; unfold M_bind at 1.
  unfold mbind at 1; unfold M_bind at 1.
  rewrite subprocess_run_calm. fold cmd r.
  destruct (negb (r.2 =? 0)); [reflexivity|].
  unfold mret at 1; unfold M_ret at 1.
  destruct (clear a).
  - unfold mbind, M_bind. rewrite write_file_calm.
    destruct (quiet a); simpl.
    + rewrite app_nil_r, <- app_assoc. reflexivity.
    + rewrite print_calm, <- app_assoc. reflexivity.
  - unfold mret, M_ret. by rewrite !app_nil_r.
Qed.

(** [steps], stage by stage. *)
Lemma steps_stages a w :
  steps E a w =
  match check_dir E (wd a) (song_list a) (download a) w with
  | (Ok _, w1) =>
      match
        (if download a then
           download_songs E (song_list a) (quiet a) (force a) (playlist a) ;;
           (if clear a then
              (write_file (song_list a) "" ;;
               if negb (quiet a) then print msg_cleared else mret tt)
            else mret tt)
         else mret tt) w1
      with
      | (Ok _, w2) => (if trim a then trim_mp3s E (quiet a) else mret tt) w2
      | (Raise x, w2) => (Raise x, w2)
      end
  | (Raise x, w1) => (Raise x, w1)
  end.
Proof. reflexivity. Qed.

(** A run that finds its list goes on to the download. *)
Lemma steps_found_calm a c m o e l :
  let c1 := if wd a then c else downloads_dir E in
  download a = true → is_file c1 (song_list a) m = true →
  steps E a (calm c m o e l) =
  match
    (download_songs E (song_list a) (quiet a) (force a) (playlist a) ;;
     if clear a then
       (write_file (song_list a) "" ;;
        if negb (quiet a) then print msg_cleared else mret tt)
     else mret tt)
      (calm c1 m o e
         ((l ++ if wd a then [] else [EChdir (downloads_dir E)]) ++
          [EIsFile (resolve c1 (song_list a))]))
  with
  | (Ok _, w2) => (if trim a then trim_mp3s E (quiet a) else mret tt) w2
  | (Raise x, w2) => (Raise x, w2)
  end.
Proof.
  intros c1 Hd Hfile.
  rewrite steps_stages, check_dir_calm, Hd, entered_calm. simpl. fold c1.
  rewrite Hfile. reflexivity.
Qed.

(** The last stage never fails and leaves standard error alone. *)
Lemma trim_stage_calm a c m o e l :
  ∃ m' o' l',
    (if trim a then trim_mp3s E (quiet a) else mret tt) (calm c m o e l) =
    (Ok tt, calm c m' (o ++ o') e (l ++ l')) ∧
    (∀ p, tmp_of E m ≠ p → trim_spares E (tmp_of E m) p → m' !! p = m !! p) ∧
    (trim a = false → m' = m) ∧
    msg_cleared ∉ o'.
Proof.
  destruct (trim a) eqn:Ht.
  - eexists _, _, _. split; [apply trim_mp3s_calm|]. split; [|split; [done|]].
    + intros p Hne Hp.
      pose proof (trim_mp3s_frame E (quiet a) p c m o e l Hne Hp) as H.
      rewrite trim_mp3s_calm in H. exact H.
    + apply msg_cleared_not_reports.
  - exists m, [], []. rewrite !app_nil_r. split; [reflexivity|].
    split; [done|]. split; [done | apply not_elem_of_nil].
Qed.

End Stages.

(** ** The download fails, or succeeds *)

(** C2. In a run that invokes the downloader (the list is there, no
    Ctrl-C interferes): if [youtube-dl] exits non-zero, the process ends
    with status 1 and the message [ERROR: Could not download from list.
    Try "sudo youtube-dl -U".] on standard error, and the calls of the run
    stop at the downloader, so the list is not cleared and nothing is
    trimmed; if it exits zero, [download] returns and the run goes on to
    end with status 0. *)
Theorem download_failure_is_fatal (E : Env) (a : Args) (w : World) :
  download a = true → sigint w = None →
  is_file (cwd (entered E a w)) (song_list a) (fs w) = true →
  let w1 := add_log (EIsFile (list_path E a w)) (entered E a w) in
  let cmd := youtube_dl (song_list a) (quiet a) (force a) (playlist a) in
  let r := proc E cmd (cwd w1) (fs w1) in
  let w2 := set_fs r.1 (add_log (ESpawn cmd) w1) in
  (r.2 ≠ 0 →
     script E a w = (1, add_err msg_download_failed w2) ∧
     log (script E a w).2 =
       log w ++ (if wd a then [] else [EChdir (downloads_dir E)]) ++
       [EIsFile (list_path E a w); ESpawn cmd]) ∧
  (r.2 = 0 →
     download_songs E (song_list a) (quiet a) (force a) (playlist a) w1 = (Ok tt, w2) ∧
     (script E a w).1 = 0 ∧ err (script E a w).2 = err w) ∧
  msg_download_failed =
    "ERROR: Could not download from list. Try " +:+ Str.dq +:+ "sudo youtube-dl -U"
      +:+ Str.dq +:+ ".".
Proof.
  intros Hd Hs Hfile w1 cmd r w2.
  subst w2 r w1. unfold list_path. rewrite (calm_world w Hs) in *.
  rewrite entered_calm in *. simpl in Hfile. simpl.
  set (c := if wd a then cwd w else downloads_dir E) in *.
  set (l1 := log w ++ (if wd a then [] else [EChdir (downloads_dir E)])).
  set (r := proc E cmd c (fs w)).
  pose proof (steps_found_calm E a (cwd w) (fs w) (out w) (err w) (log w) Hd Hfile)
    as Hsteps.
  fold c l1 in Hsteps.
  split; [|split; [|reflexivity]].
  - intros Hrc. unfold script. rewrite Hsteps, fetch_calm. fold cmd r.
    assert (negb (r.2 =? 0) = true) as -> by (apply negb_true_iff, Z.eqb_neq; done).
    simpl. split; [reflexivity|]. unfold l1. by rewrite <- !app_assoc.
  - intros Hrc. split.
    + unfold download_songs, mbind, M_bind.
      change (add_log (EIsFile (resolve c (song_list a))) _) with
        (calm c (fs w) (out w) (err w) (l1 ++ [EIsFile (resolve c (song_list a))])).
      rewrite subprocess_run_calm. fold cmd r. rewrite Hrc. reflexivity.
    + unfold script. rewrite Hsteps, fetch_calm. fold cmd r. rewrite Hrc. simpl.
      match goal with |- context [(if trim a then _ else _) (calm ?c ?m ?o ?e ?l)] =>
        destruct (trim_stage_calm E a c m o e l) as (m' & o' & l' & -> & _) end.
      split; reflexivity.
Qed.

(** The temporary file has a name in [.mp3]. *)
Lemma tmp_of_mp3 (E : Env) (m : FS) : Str.endswith (tmp_of E m) ".mp3" = true.
Proof. unfold tmp_of. by apply endswith_app. Qed.

(** The trimmer hands [sox] output names in [.mp3] only: when [sox]
    writes its output file alone, every other file is spared. *)
Lemma sox_spares (E : Env) (tmp p : string) :
  sox_writes_output_only E →
  Str.endswith p ".mp3" = false → Str.endswith tmp ".mp3" = true →
  trim_spares E tmp p.
Proof.
  intros Hsox Hp Htmp f Hf.
  assert (Hout : ∀ d x, Str.endswith x ".mp3" = true → p ≠ resolve d x).
  { intros d x Hx ->. rewrite endswith_resolve in Hp by done. discriminate. }
  split; intros d m; apply Hsox; by apply Hout.
Qed.

Lemma tmp_is_not (E : Env) (m : FS) (p : string) :
  Str.endswith p ".mp3" = false → tmp_of E m ≠ p.
Proof. intros Hp <-. by rewrite tmp_of_mp3 in Hp. Qed.



(** ** The list file is left alone *)

Section Keeping.

Variable E : Env.
Variable p : string.

Lemma keeps_ret {A} (a : A) : keeps p (mret a : M A).
Proof. by intros w. Qed.

Lemma keeps_raise {A} (e : Exn) : keeps p (raise e : M A).
Proof. by intros w. Qed.

Lemma keeps_bind {A B} (m : M A) (k : A → M B) :
  keeps p m → (∀ a, keeps p (k a)) → keeps p (m ≫= k).
Proof.
  intros Hm Hk w. unfold mbind, M_bind. specialize (Hm w).
  destruct (m w) as [[a|e] w1]; simpl in *; [|done].
  by rewrite Hk.
Qed.

Ltac by_cases := intros [c m o e l [[|n]|]]; reflexivity.

Lemma keeps_chdir d : keeps p (chdir d).
Proof. by_cases. Qed.

Lemma keeps_isfile q : keeps p (isfile q).
Proof. by_cases. Qed.

Lemma keeps_print s : keeps p (print s).
Proof. by_cases. Qed.

Lemma keeps_os_listdir : keeps p os_listdir.
Proof. by_cases. Qed.

Lemma keeps_subprocess_run argv :
  spared E p argv → keeps p (subprocess_run E argv).
Proof.
  intros Hp [c m o e l s]. unfold subprocess_run. simpl.
  destruct (Hp c m) as [Hrun Hkill].
  destruct s as [[|n]|]; simpl; try done;
    destruct (proc E argv c m); simpl in *; done.
Qed.

Lemma keeps_trim_loop quiet tmp names :
  trim_spares E tmp p → keeps p (trim_loop E quiet tmp names).
Proof.
  intros Hp. induction names as [|f rest IH]; simpl; [apply keeps_ret|].
  apply keeps_bind; [|intros _; exact IH].
  destruct (Str.endswith f ".mp3") eqn:Hf; [|apply keeps_ret]. simpl.
  destruct (Hp f Hf) as [H1 H2]. unfold trim_one.
  apply keeps_bind; [by apply keeps_subprocess_run|]. intros ret1.
  apply keeps_bind; [by apply keeps_subprocess_run|]. intros ret2.
  destruct (negb (ret1 =? 0) || negb (ret2 =? 0)); [apply keeps_print|].
  destruct (negb quiet); [apply keeps_print | apply keeps_ret].
Qed.

(** The temporary file comes and goes; it is another file than [p]. *)
Lemma keeps_with_tmp quiet tmp (m : FS) w1 :
  fs w1 = <[tmp := ""]> m → tmp ≠ p → trim_spares E tmp p →
  fs (finally (names ← os_listdir; trim_loop E quiet tmp names) (close_tmp tmp) w1).2 !! p
  = m !! p.
Proof.
  intros Hfs Hne Hp. unfold finally.
  assert (Hin : keeps p (names ← os_listdir; trim_loop E quiet tmp names)).
  { apply keeps_bind; [apply keeps_os_listdir|]. intros names. by apply keeps_trim_loop. }
  specialize (Hin w1). destruct ((names ← os_listdir; trim_loop E quiet tmp names) w1) as [r w2].
  simpl in *. rewrite lookup_delete_ne by done. rewrite Hin, Hfs. by rewrite lookup_insert_ne.
Qed.

Lemma keeps_trim_mp3s quiet :
  (∀ m, tmp_of E m ≠ p ∧ trim_spares E (tmp_of E m) p) → keeps p (trim_mp3s E quiet).
Proof.
  intros Hp [c m o e l s]. destruct (Hp m) as [Hne Hsp].
  destruct s as [[|n]|]; [reflexivity| |].
  - by apply (keeps_with_tmp quiet (tmp_of E m) m
                (mkWorld c (<[tmp_of E m := ""]> m) o e (l ++ [EMkTemp (tmp_of E m)]) (Some n))).
  - by apply (keeps_with_tmp quiet (tmp_of E m) m
                (mkWorld c (<[tmp_of E m := ""]> m) o e (l ++ [EMkTemp (tmp_of E m)]) None)).
Qed.

(** A run that may not clear the list leaves it as it is. *)
Lemma keeps_steps a :
  clear a = false ∨ download a = false →
  (trim a = true → ∀ m, tmp_of E m ≠ p ∧ trim_spares E (tmp_of E m) p) →
  (download a = true →
   spared E p (youtube_dl (song_list a) (quiet a) (force a) (playlist a))) →
  keeps p (steps E a).
Proof.
  intros Hflags Hsox Hdl. unfold steps. apply keeps_bind.
  { unfold check_dir. apply keeps_bind.
    - destruct (negb (wd a)); [apply keeps_chdir | apply keeps_ret].
    - intros _. destruct (download a); [|apply keeps_ret].
      apply keeps_bind; [apply keeps_isfile|]. intros present.
      destruct (negb present); [apply keeps_raise | apply keeps_ret]. }
  intros _. apply keeps_bind.
  { destruct (download a) eqn:Hd; [|apply keeps_ret].
    destruct Hflags as [Hc|?]; [|done]. rewrite Hc.
    apply keeps_bind; [|intros _; apply keeps_ret].
    unfold download_songs. apply keeps_bind.
    - by apply keeps_subprocess_run, Hdl.
    - intros rc. destruct (negb (rc =? 0)); [apply keeps_raise | apply keeps_ret]. }
  intros _. destruct (trim a); [|apply keeps_ret].
  by apply keeps_trim_mp3s, Hsox.
Qed.

End Keeping.

Lemma script_log E a w : log (script E a w).2 = log (steps E a w).2.
Proof. unfold script. by destruct (steps E a w) as [[?|[]] ?]. Qed.

Lemma script_fs E a w : fs (script E a w).2 = fs (steps E a w).2.
Proof. unfold script. by destruct (steps E a w) as [[?|[]] ?]. Qed.

Lemma script_cwd E a w : cwd (script E a w).2 = cwd (steps E a w).2.
Proof. unfold script. by destruct (steps E a w) as [[?|[]] ?]. Qed.

(** C4, as the specification states it, fails.  With [--wd --nodownload
    --song-list a.mp3] the list named is an entry of the working
    directory that ends in [.mp3]: the trimmer runs [sox] on it like on
    any other, and its content after the run is not its content before
    the run. *)
Lemma list_named_as_audio_is_not_kept :
  Argparse.parse_args ["--wd"; "--nodownload"; "--song-list"; "a.mp3"] =
    Argparse.Parsed Demo.a_list_audio ∧
  download Demo.a_list_audio = false ∧
  list_path Demo.E Demo.a_list_audio Demo.w1 = "/home/u/Downloads/a.mp3" ∧
  fs Demo.w1 !! "/home/u/Downloads/a.mp3" = Some "ID3 a" ∧
  fs (script Demo.E Demo.a_list_audio Demo.w1).2 !! "/home/u/Downloads/a.mp3"
    = Some "ID3 a''" ∧
  fs (script Demo.E Demo.a_list_audio Demo.w1).2 !! list_path Demo.E Demo.a_list_audio Demo.w1
    ≠ fs Demo.w1 !! list_path Demo.E Demo.a_list_audio Demo.w1.
Proof.
  assert (H1 : fs Demo.w1 !! "/home/u/Downloads/a.mp3" = Some "ID3 a")
    by (vm_compute; reflexivity).
  assert (H2 : fs (script Demo.E Demo.a_list_audio Demo.w1).2 !! "/home/u/Downloads/a.mp3"
               = Some "ID3 a''") by (vm_compute; reflexivity).
  repeat split; try (vm_compute; reflexivity); try assumption.
  change (list_path Demo.E Demo.a_list_audio Demo.w1) with "/home/u/Downloads/a.mp3".
  rewrite H1, H2. discriminate.
Qed.

(** C4, amended.  A run with [--noclear] or [--nodownload] never opens
    the list file for writing, and with [--nodownload] it never looks the
    list file up either; this holds for every run, interrupted or not.
    The content of the list file after the run is its content before the
    run when the trimmer does not take the list for audio: when
    [--notrim] is set, or when the path of the list does not end in
    [.mp3] and [sox] writes no file but its output file; if the download
    runs, given also that the [youtube-dl] run leaves the list file as
    it is. *)
Theorem list_untouched (E : Env) (a : Args) (w : World) :
  clear a = false ∨ download a = false →
  (∃ evs,
     log (script E a w).2 = log w ++ evs ∧
     (∀ q, EOpenW q ∉ evs) ∧
     (download a = false → ∀ q, EIsFile q ∉ evs)) ∧
  (trim a = false ∨
   (Str.endswith (list_path E a w) ".mp3" = false ∧ sox_writes_output_only E) →
   (download a = true →
    spared E (list_path E a w) (youtube_dl (song_list a) (quiet a) (force a) (playlist a))) →
   fs (script E a w).2 !! list_path E a w = fs w !! list_path E a w).
Proof.
  intros Hflags. split.
  - rewrite script_log. destruct (steps_footprint E a w) as (evs & Hl & HP).
    exists evs. split; [done|].
    assert (Hall : ∀ d, Forall (allowed a d) evs ∨
                        (∃ evs', evs = EChdir (downloads_dir E) :: evs' ∧
                                 Forall (allowed a d) evs') ∨ evs = [] →
                   (∀ q, EOpenW q ∉ evs) ∧ (download a = false → ∀ q, EIsFile q ∉ evs)).
    { intros d Hev. split.
      - intros q Hq.
        assert (Hin : ∀ l, Forall (allowed a d) l → EOpenW q ∉ l).
        { intros l Hl' Hq'. rewrite Forall_forall in Hl'. apply Hl' in Hq'.
          simpl in Hq'. destruct Hq' as (? & ? & _). destruct Hflags; congruence. }
        destruct Hev as [H|[(evs' & -> & H)| ->]].
        + by apply (Hin evs).
        + apply elem_of_cons in Hq as [?|Hq]; [done|]. by apply (Hin evs').
        + by apply not_elem_of_nil in Hq.
      - intros Hd q Hq.
        assert (Hin : ∀ l, Forall (allowed a d) l → EIsFile q ∉ l).
        { intros l Hl' Hq'. rewrite Forall_forall in Hl'. apply Hl' in Hq'.
          simpl in Hq'. destruct Hq' as (? & _). congruence. }
        destruct Hev as [H|[(evs' & -> & H)| ->]].
        + by apply (Hin evs).
        + apply elem_of_cons in Hq as [?|Hq]; [done|]. by apply (Hin evs').
        + by apply not_elem_of_nil in Hq. }
    destruct (wd a).
    + apply (Hall (cwd w)). by left.
    + apply (Hall (downloads_dir E)). destruct HP as [ -> |?]; eauto.
  - intros Htrim Hdl. rewrite script_fs. apply keeps_steps; [done| |done].
    intros Ht m. destruct Htrim as [?|[Hp Hsox]]; [congruence|].
    split; [by apply tmp_is_not|].
    apply sox_spares; [done|done|apply tmp_of_mp3].
Qed.

(** ** The trimmer *)

(** Not every entry the trimmer reports as failed is left alone:
    [a.mp3] trims well and leaves its reversed, trimmed audio in the
    temporary file; the first [sox] run on [b.mp3] fails and leaves the
    temporary file as it is; the second run, issued all the same, copies
    that audio over [b.mp3]. *)
Lemma failed_trim_overwrites : ¬ failed_trims_left_alone Demo.E false Demo.w1.
Proof.
  intros H. specialize (H "b.mp3").
  assert (Hout : out (trim_mp3s Demo.E false Demo.w1).2 =
                 ["Silence trimmed from a.mp3"; msg_trim_failed "b.mp3"])
    by (vm_compute; reflexivity).
  assert (Hafter : fs (trim_mp3s Demo.E false Demo.w1).2 !! resolve (cwd Demo.w1) "b.mp3"
                   = Some "ID3 a''") by (vm_compute; reflexivity).
  assert (Hbefore : fs Demo.w1 !! resolve (cwd Demo.w1) "b.mp3" = Some "junk")
    by (vm_compute; reflexivity).
  rewrite Hout, Hafter, Hbefore in H.
  discriminate H. apply elem_of_cons. right. apply list_elem_of_singleton. reflexivity.
Qed.

(** C5.  What the claim asks of a failed trim is what a trimmer should
    do, and [trim_mp3s] does not do it.  One turn of the loop always
    issues both [sox] runs, the second whether or not the first
    succeeded, and only then looks at the two return codes.  In a
    directory with [a.mp3] (audio) and [b.mp3] (not audio), with a [sox]
    that fails on [b.mp3] before it opens its output: the first run on
    [b.mp3] fails, the second run is issued all the same and copies the
    audio the temporary file still holds from [a.mp3] over [b.mp3]; the
    warning [WARNING: Failed to trim silence from b.mp3] is printed, and
    [b.mp3] is not left as it was. *)
Theorem failed_trim_clobbers_the_file :
  (∀ E quiet tmp f c m o e l,
     log (trim_one E quiet tmp f (calm c m o e l)).2 =
     l ++ [ESpawn (sox_end f tmp); ESpawn (sox_start f tmp)]) ∧
  let tmp := tmp_of Demo.E (fs Demo.w1) in
  let w' := (trim_mp3s Demo.E false Demo.w1).2 in
  log w' =
    [EMkTemp tmp; EListDir "/home/u/Downloads";
     ESpawn (sox_end "a.mp3" tmp); ESpawn (sox_start "a.mp3" tmp);
     ESpawn (sox_end "b.mp3" tmp); ESpawn (sox_start "b.mp3" tmp);
     EUnlink tmp] ∧
  out w' = ["Silence trimmed from a.mp3"; "WARNING: Failed to trim silence from b.mp3"] ∧
  fs Demo.w1 !! "/home/u/Downloads/b.mp3" = Some "junk" ∧
  fs w' !! "/home/u/Downloads/b.mp3" = Some "ID3 a''" ∧
  ¬ failed_trims_left_alone Demo.E false Demo.w1.
Proof.
  split.
  - intros E quiet tmp f c m o e l. by rewrite trim_one_calm.
  - repeat split; try (vm_compute; reflexivity). exact failed_trim_overwrites.
Qed.

(** C6. The trimmer (no Ctrl-C interfering) creates its temporary file,
    lists the working directory, and for every entry of that listing whose
    name ends in [.mp3], and for no other, runs [sox] exactly twice, in
    this order: from the entry to the temporary file with [reverse silence
    1 0.1 0.1% reverse], then from the temporary file back over the entry
    with [silence 1 0.1 0.1%].  Then it removes the temporary file. *)
Theorem trimmer_invocations (E : Env) (quiet : bool) (w : World) :
  sigint w = None →
  let tmp := tmp_of E (fs w) in
  let names := listdir (cwd w) (<[tmp := ""]> (fs w)) in
  (∀ f, f ∈ names ↔
        ∃ k, is_Some (<[tmp := ""]> (fs w) !! k) ∧ entry_under (cwd w) k = Some f) ∧
  ∃ w',
    trim_mp3s E quiet w = (Ok tt, w') ∧
    log w' =
      log w ++ [EMkTemp tmp; EListDir (cwd w)] ++
      List.flat_map
        (λ f, [ESpawn ["sox"; f; tmp; "reverse"; "silence"; "1"; "0.1"; "0.1%"; "reverse"];
               ESpawn ["sox"; tmp; f; "silence"; "1"; "0.1"; "0.1%"]])
        (List.filter (λ f, Str.endswith f ".mp3") names) ++
      [EUnlink tmp].
Proof.
  intros Hs tmp names. split; [intros f; apply listdir_spec|].
  rewrite (calm_world w Hs). rewrite trim_mp3s_calm.
  eexists. split; [reflexivity|]. reflexivity.
Qed.

(** C7. Per file (no Ctrl-C interfering): if either [sox] run exits
    non-zero the warning [WARNING: Failed to trim silence from <file>] is
    printed; if both exit zero the notice [Silence trimmed from <file>]
    is printed when quiet mode is off and nothing when it is on; in every
    case the iteration returns normally.  So the loop goes through the
    whole listing whatever the return codes: every [.mp3] entry gets its
    two runs and its report, one after the other in the order of the
    listing, and the trimmer returns. *)
Theorem trim_failures_do_not_abort (E : Env) (quiet : bool) (tmp : string) (w : World) :
  sigint w = None →
  (∀ f,
     let r1 := proc E (sox_end f tmp) (cwd w) (fs w) in
     let r2 := proc E (sox_start f tmp) (cwd w) r1.1 in
     ∃ w1,
       trim_one E quiet tmp f w = (Ok tt, w1) ∧ sigint w1 = None ∧
       (r1.2 ≠ 0 ∨ r2.2 ≠ 0 →
        out w1 = out w ++ ["WARNING: Failed to trim silence from " +:+ f]) ∧
       (r1.2 = 0 → r2.2 = 0 → quiet = false →
        out w1 = out w ++ ["Silence trimmed from " +:+ f]) ∧
       (r1.2 = 0 → r2.2 = 0 → quiet = true → out w1 = out w)) ∧
  (∀ names,
     let rs := (trim_results E tmp (cwd w) (fs w) names).1 in
     ∃ w',
       trim_loop E quiet tmp names w = (Ok tt, w') ∧
       (λ r : string * Z * Z, r.1.1) <$> rs = mp3s names ∧
       log w' = log w ++ sox_calls tmp names ∧
       out w' =
         out w ++
         List.flat_map
           (λ r : string * Z * Z,
              if negb (r.1.2 =? 0) || negb (r.2 =? 0)
              then ["WARNING: Failed to trim silence from " +:+ r.1.1]
              else if quiet then [] else ["Silence trimmed from " +:+ r.1.1])
           rs) ∧
  (trim_mp3s E quiet w).1 = Ok tt.
Proof.
  intros Hs. rewrite (calm_world w Hs). simpl. split; [|split].
  - intros f. rewrite trim_one_calm.
    set (r1 := proc E (sox_end f tmp) (cwd w) (fs w)).
    set (r2 := proc E (sox_start f tmp) (cwd w) r1.1).
    eexists. split; [reflexivity|]. simpl. split; [reflexivity|].
    unfold report. split; [|split].
    + intros Hrc.
      assert (negb (r1.2 =? 0) || negb (r2.2 =? 0) = true) as ->; [|done].
      apply orb_true_iff. destruct Hrc as [Hrc|Hrc]; [left|right];
        by apply negb_true_iff, Z.eqb_neq.
    + intros -> -> ->. reflexivity.
    + intros -> -> ->. simpl. by rewrite app_nil_r.
  - intros names. rewrite trim_loop_calm. eexists. split; [reflexivity|].
    simpl. split; [apply trim_results_names|]. split; reflexivity.
  - by rewrite trim_mp3s_calm.
Qed.

(** ** Ctrl-C *)


(** ** The default directory *)

(** C10. Without [--wd] (and unless Ctrl-C arrives before the first step)
    the first thing a run does is change into [~/Downloads], with
    [--nodownload] as without: the run is the one [--wd] would give when
    started there.  It stays there, looks the song list up under that
    directory and lists that directory for the trimmer. *)
Theorem default_directory_first (E : Env) (a : Args) (w : World) :
  wd a = false → sigint w ≠ Some O →
  let D := downloads_dir E in
  let w1 := set_sigint (pred <$> sigint w) (set_cwd D (add_log (EChdir D) w)) in
  D = home E +:+ "/Downloads" ∧
  script E a w = script E (in_place a) w1 ∧
  cwd (script E a w).2 = D ∧
  ∃ evs,
    log (script E a w).2 = log w ++ EChdir D :: evs ∧
    (∀ p, EIsFile p ∈ evs → p = resolve D (song_list a)) ∧
    (∀ x, EListDir x ∈ evs → x = D) ∧
    (∀ x, EChdir x ∉ evs).
Proof.
  intros Hwd Hs D w1. split; [reflexivity|].
  assert (Hsteps : steps E a w = steps E (in_place a) w1).
  { rewrite steps_enter by done. unfold mbind, M_bind. subst w1.
    destruct w as [c m o e l [[|n]|]]; [done|reflexivity|reflexivity]. }
  assert (Hscript : script E a w = script E (in_place a) w1).
  { unfold script. by rewrite Hsteps. }
  split; [exact Hscript|].
  destruct (steps_in_place_footprint E (in_place a) D eq_refl w1) as (Hc & evs & Hl & HP).
  { subst w1. by destruct w. }
  split; [by rewrite script_cwd, Hsteps|].
  exists evs. split.
  { rewrite script_log, Hsteps, Hl. subst w1. destruct w; simpl.
    by rewrite <- app_assoc. }
  rewrite Forall_forall in HP. split; [|split].
  - intros p Hp. apply HP in Hp. simpl in Hp. by destruct Hp.
  - intros x Hx. apply HP in Hx. simpl in Hx. by destruct Hx.
  - intros x Hx. apply HP in Hx. exact Hx.
Qed.

(** ** The command line *)

Module ArgparseFacts.
Import Argparse ArgparseSteps.

(** Induction over a list that may also step to the tail of the tail,
    as [consume] does when [--song-list] takes the next string. *)
Lemma list_ind2 {A} (P : list A → Prop) :
  P [] →
  (∀ x l, P l → (∀ y l', l = y :: l' → P l') → P (x :: l)) →
  ∀ l, P l.
Proof.
  intros Hnil Hcons l.
  assert (H : P l ∧ ∀ y l', l = y :: l' → P l'); [|by destruct H].
  induction l as [|x l [IH1 IH2]].
  - split; [done|]. intros ? ? [=].
  - split; [by apply Hcons|]. by intros ? ? [= <- <-].
Qed.

Lemma consume_flag s os o rest st :
  o ≠ OHelp → o ≠ OSongList →
  consume ((s, COption (os, o, None)) :: rest) st =
  match take_flag o st with
  | inl e => UsageError e
  | inr st' => consume rest st'
  end.
Proof. by destruct o. Qed.

(** One turn of the second pass is a step, or the end of the parse at an
    option: the help text, or an error. *)
Lemma consume_cases s c rest st :
  (∃ rest' st', step s c rest st rest' st' ∧
                consume ((s, c) :: rest) st = consume rest' st' ∧
                (rest' = rest ∨ ∃ v, rest = (v, CArg) :: rest')) ∨
  (∃ os o ex, c = COption (os, o, ex) ∧
     ((o = OHelp ∧ consume ((s, c) :: rest) st = HelpExit) ∨
      ∃ e, consume ((s, c) :: rest) st = UsageError e)).
Proof.
  destruct c as [| | |[[os o] ex]].
  1-3: by (left; exists rest, (add_extra s st); split; [by constructor|]; split; [|left]).
  destruct (decide (o = OHelp)) as [->|Hh]; [|destruct (decide (o = OSongList)) as [->|Hs]].
  - right. exists os, OHelp, ex. split; [done|]. simpl.
    destruct ex as [e|]; [|by left].
    destruct (String.eqb os "-h" && negb (String.eqb e "")); [|right; eauto].
    destruct (cluster e); [right; eauto | by left].
  - destruct ex as [v|].
    + left. exists rest, (store_song_list (get_values v) st).
      split; [by econstructor|]. by split; [|left].
    + destruct rest as [|[v [| | |t]] rest'];
        try (right; exists os, OSongList, None; split; [done|]; right; eexists; reflexivity).
      left. exists rest', (store_song_list (get_values v) st).
      split; [by econstructor|]. split; [done|]. right. by exists v.
  - destruct ex as [e|].
    + right. exists os, o, (Some e). split; [done|]. right.
      destruct o; try done; eexists; reflexivity.
    + pose proof (consume_flag s os o rest st Hh Hs) as Hc.
      destruct (take_flag o st) as [e|st'] eqn:Hf.
      * right. exists os, o, None. split; [done|]. right. eauto.
      * left. exists rest, st'. split; [by eapply step_flag|]. by split; [|left].
Qed.

Lemma consume_step s c rest st a :
  returns (consume ((s, c) :: rest) st) a →
  ∃ rest' st', step s c rest st rest' st' ∧ returns (consume rest' st') a ∧
               (rest' = rest ∨ ∃ v, rest = (v, CArg) :: rest').
Proof.
  intros H.
  destruct (consume_cases s c rest st)
    as [(rest' & st' & Hst & Heq & Hr)|(os & o & ex & _ & [[_ Hx]|[e Hx]])].
  - exists rest', st'. by rewrite <- Heq.
  - rewrite Hx in H. by destruct H.
  - rewrite Hx in H. by destruct H.
Qed.

(** A property of parser states that every step keeps holds of the
    namespace the parse returns. *)
Lemma consume_invariant (I : PState → Prop) :
  (∀ s c rest st rest' st', I st → step s c rest st rest' st' → I st') →
  ∀ items st a, I st → returns (consume items st) a →
    ∃ st', I st' ∧ ns st' = a ∧ extras st' = [].
Proof.
  intros Hstep items. induction items as [|[s c] rest IH1 IH2] using list_ind2;
    intros st a HI H.
  - simpl in H. destruct (extras st) eqn:Hex; [|by destruct H].
    exists st. destruct (unnamed st); destruct H as [[=]|[=]]; subst; eauto.
  - apply consume_step in H as (rest' & st' & Hst & H & [->|[v ->]]).
    + eapply IH1; [|done]. eauto.
    + eapply IH2; [done| |done]. eauto.
Qed.

Lemma exclusive_step s c rest st rest' st' :
  exclusive st → step s c rest st rest' st' → exclusive st'.
Proof.
  intros (H1 & H2 & H3) Hstep. destruct Hstep as [_|os v _|os v rest' _ _|os o st' _ Hh Hs Hf];
    try done; try (by destruct (get_values v)).
  destruct st as [a sn sd ex un]. simpl in *.
  destruct o; simpl in Hf; try done; try (injection Hf as <-; done).
  - destruct sd; [discriminate|]. injection Hf as <-. simpl.
    split; [done|]. split; [done|]. right. by destruct (download a).
  - destruct sn; [discriminate|]. injection Hf as <-. simpl.
    split; [done|]. split; [done|]. left. by destruct (trim a).
Qed.

(** No namespace the parser returns has both [trim] and [download] off. *)
Lemma parsed_exclusive argv a :
  returns (parse_args argv) a → trim a = true ∨ download a = true.
Proof.
  unfold parse_args. destruct (classify argv) as [e|items]; [by intros [?|?]|].
  intros H.
  destruct (consume_invariant exclusive exclusive_step items initial a)
    as (st & Hst & <- & _); [by repeat split; try left | done | apply Hst].
Qed.

(** A string that nothing consumes makes the parse fail. *)
Lemma extras_block items st a : extras st ≠ [] → ¬ returns (consume items st) a.
Proof.
  intros Hex H.
  assert (Hkeep : ∀ s c rest st rest' st',
            extras st ≠ [] → step s c rest st rest' st' → extras st' ≠ []).
  { clear. intros s c rest st rest' st' Hex Hstep.
    destruct Hstep as [_|os v _|os v rest' _ _|os o st' _ Hh Hs Hf];
      try done; try (by destruct (get_values v)).
    - destruct st as [a sn sd ex un]. simpl in *. by destruct ex.
    - destruct st as [a sn sd ex un]. simpl in *.
      destruct o; simpl in Hf; try done; try (by injection Hf as <-).
      + destruct sd; [discriminate|]. by injection Hf as <-.
      + destruct sn; [discriminate|]. by injection Hf as <-. }
  destruct (consume_invariant _ Hkeep items st a Hex H) as (st' & Hne & _ & Hnil).
  done.
Qed.

(** A parse that succeeds has met no [--]. *)
Lemma parsed_no_marker items : ∀ st a s,
  returns (consume items st) a → (s, CMarker) ∉ items.
Proof.
  induction items as [|[s0 c0] rest IH1 IH2] using list_ind2; intros st a s H Hin.
  - by apply not_elem_of_nil in Hin.
  - apply consume_step in H as (rest' & st' & Hst & H & Hrest).
    apply elem_of_cons in Hin as [[= <- <-]|Hin].
    + destruct Hst as [_|os v Hc|os v rest' Hc _|os o st' Hc _ _ _]; try discriminate.
      by apply extras_block in H; [|destruct st as [? ? ? [] ?]].
    + destruct Hrest as [->|[v ->]]; [by eapply IH1|].
      apply elem_of_cons in Hin as [[=]|Hin]. by eapply IH2.
Qed.

(** A parse that succeeds has taken the action of every flag it met. *)
Lemma parsed_flag_taken items : ∀ st a s os o,
  returns (consume items st) a → (s, COption (os, o, None)) ∈ items →
  o ≠ OHelp → o ≠ OSongList →
  ∃ st1 st2 rest, take_flag o st1 = inr st2 ∧ returns (consume rest st2) a.
Proof.
  induction items as [|[s0 c0] rest IH1 IH2] using list_ind2;
    intros st a s os o H Hin Hh Hs.
  - by apply not_elem_of_nil in Hin.
  - apply consume_step in H as (rest' & st' & Hst & H & Hrest).
    apply elem_of_cons in Hin as [[= <- <-]|Hin].
    + destruct Hst as [[]|os' v [=]|os' v rest' [=] _|os' o' st' [= <- <-] _ _ Hf];
        try congruence.
      eauto.
    + destruct Hrest as [->|[v ->]]; [by eapply IH1|].
      apply elem_of_cons in Hin as [[=]|Hin]. by eapply IH2.
Qed.

(** Nothing switches [trim] or [download] back on. *)
Lemma trim_stays_off items st a :
  trim (ns st) = false → returns (consume items st) a → trim a = false.
Proof.
  intros Hoff H.
  assert (Hkeep : ∀ s c rest st rest' st',
            trim (ns st) = false → step s c rest st rest' st' → trim (ns st') = false).
  { clear. intros s c rest st rest' st' Hoff Hstep.
    destruct Hstep as [_|os v _|os v rest' _ _|os o st' _ Hh Hs Hf];
      try done; try (by destruct (get_values v)).
    destruct st as [a sn sd ex un]. simpl in *.
    destruct o; simpl in Hf; try done; try (by injection Hf as <-).
    - destruct sd; [discriminate|]. by injection Hf as <-.
    - destruct sn; [discriminate|]. by injection Hf as <-. }
  by destruct (consume_invariant _ Hkeep items st a Hoff H) as (st' & Hst' & <- & _).
Qed.

Lemma download_stays_off items st a :
  download (ns st) = false → returns (consume items st) a → download a = false.
Proof.
  intros Hoff H.
  assert (Hkeep : ∀ s c rest st rest' st',
            download (ns st) = false → step s c rest st rest' st' → download (ns st') = false).
  { clear. intros s c rest st rest' st' Hoff Hstep.
    destruct Hstep as [_|os v _|os v rest' _ _|os o st' _ Hh Hs Hf];
      try done; try (by destruct (get_values v)).
    destruct st as [a sn sd ex un]. simpl in *.
    destruct o; simpl in Hf; try done; try (by injection Hf as <-).
    - destruct sd; [discriminate|]. by injection Hf as <-.
    - destruct sn; [discriminate|]. by injection Hf as <-. }
  by destruct (consume_invariant _ Hkeep items st a Hoff H) as (st' & Hst' & <- & _).
Qed.

(** The first pass keeps every string, and classes it by [parse_optional]
    unless a [--] comes first. *)
Lemma classify_option argv : ∀ items s t,
  classify argv = inr items → s ∈ argv →
  parse_optional s = inr (Some (Some t)) →
  (s, COption t) ∈ items ∨ ∃ m, (m, CMarker) ∈ items.
Proof.
  induction argv as [|x argv IH]; intros items s t Hcl Hin Hs.
  - by apply not_elem_of_nil in Hin.
  - simpl in Hcl. destruct (String.eqb x "--") eqn:Hx.
    { injection Hcl as <-. right. exists x. apply elem_of_cons. by left. }
    destruct (parse_optional x) as [e|c] eqn:Hpx; [discriminate|].
    destruct (classify argv) as [e|items'] eqn:Hcl'; [discriminate|].
    injection Hcl as <-.
    apply elem_of_cons in Hin as [->|Hin].
    + left. rewrite Hs in Hpx. injection Hpx as <-. apply elem_of_cons. by left.
    + destruct (IH items' s t eq_refl Hin Hs) as [H|[m H]].
      * left. apply elem_of_cons. by right.
      * right. exists m. apply elem_of_cons. by right.
Qed.

(** The options of the second pass are strings of the command line that
    [parse_optional] took for options. *)
Lemma option_classified argv : ∀ items s t,
  classify argv = inr items → (s, COption t) ∈ items →
  s ∈ argv ∧ parse_optional s = inr (Some (Some t)).
Proof.
  induction argv as [|x argv IH]; intros items s t Hcl Hin.
  - injection Hcl as <-. by apply not_elem_of_nil in Hin.
  - simpl in Hcl. destruct (String.eqb x "--") eqn:Hx.
    { injection Hcl as <-. apply elem_of_cons in Hin as [[=]|Hin].
      by apply list_elem_of_fmap in Hin as (y & [=] & _). }
    destruct (parse_optional x) as [e|c] eqn:Hpx; [discriminate|].
    destruct (classify argv) as [e|items'] eqn:Hcl'; [discriminate|].
    injection Hcl as <-.
    apply elem_of_cons in Hin as [[= -> Hc]|Hin].
    + split; [apply elem_of_cons; by left|].
      by destruct c as [[t'|]|]; try discriminate; injection Hc as ->.
    + destruct (IH items' s t eq_refl Hin) as [H1 H2].
      split; [apply elem_of_cons; by right | done].
Qed.

(** A command line on which both members of the exclusive group are
    written does not parse. *)
Lemma both_given_not_parsed argv t d a :
  t ∈ argv → d ∈ argv → spelled ONoTrim t → spelled ONoDownload d →
  ¬ returns (parse_args argv) a.
Proof.
  intros Ht Hd [ot Hot] [od Hod] H. pose proof (parsed_exclusive argv a H) as Hex.
  unfold parse_args in H.
  destruct (classify argv) as [e|items] eqn:Hcl; [by destruct H|].
  destruct (classify_option argv items t (ot, ONoTrim, None) Hcl Ht Hot)
    as [Ht'|[m Hm]]; [|by eapply parsed_no_marker].
  destruct (classify_option argv items d (od, ONoDownload, None) Hcl Hd Hod)
    as [Hd'|[m Hm]]; [|by eapply parsed_no_marker].
  destruct (parsed_flag_taken items initial a _ _ _ H Ht') as (s1 & s2 & r & Hf & Hr);
    [done|done|].
  assert (trim a = false).
  { eapply trim_stays_off; [|exact Hr]. destruct s1 as [x sn sd ex un]. simpl in Hf.
    destruct sd; [discriminate|]. by injection Hf as <-. }
  destruct (parsed_flag_taken items initial a _ _ _ H Hd') as (s3 & s4 & r' & Hf' & Hr');
    [done|done|].
  assert (download a = false).
  { eapply download_stays_off; [|exact Hr']. destruct s3 as [x sn sd ex un]. simpl in Hf'.
    destruct sn; [discriminate|]. by injection Hf' as <-. }
  destruct Hex; congruence.
Qed.

(** The help text is printed only at a help option. *)
Lemma help_taken items : ∀ st,
  consume items st = HelpExit → ∃ s os ex, (s, COption (os, OHelp, ex)) ∈ items.
Proof.
  induction items as [|[s c] rest IH1 IH2] using list_ind2; intros st H.
  - simpl in H. destruct (extras st); [destruct (unnamed st)|]; discriminate.
  - destruct (consume_cases s c rest st)
      as [(rest' & st' & Hst & Heq & Hr)|(os & o & ex & -> & [[-> _]|[e Hx]])].
    + rewrite Heq in H. destruct Hr as [->|[v ->]].
      * destruct (IH1 st' H) as (s' & os & ex & Hin).
        exists s', os, ex. apply elem_of_cons. by right.
      * destruct (IH2 _ _ eq_refl st' H) as (s' & os & ex & Hin).
        exists s', os, ex. apply elem_of_cons. right. apply elem_of_cons. by right.
    + exists s, os, ex. apply elem_of_cons. by left.
    + congruence.
Qed.

Lemma lookup_option_spec s p : lookup_option s = Some p → p ∈ option_strings ∧ p.1 = s.
Proof.
  unfold lookup_option. intros H. apply find_some in H as [Hin Heq].
  split; [by apply list_elem_of_In | by apply String.eqb_eq].
Qed.

(** The two option strings of the help action. *)
Lemma help_strings os : (os, OHelp) ∈ option_strings → os = "-h" ∨ os = "--help".
Proof.
  unfold option_strings. intros H.
  repeat (apply elem_of_cons in H as [H'|H]; [inversion H'; by auto|]).
  by apply not_elem_of_nil in H.
Qed.

Lemma split1_spec c s l r : Str.split1 c s = Some (l, r) → s = l +:+ String c r.
Proof.
  revert l. induction s as [|a s IH]; intros l H; [discriminate|]. simpl in H.
  destruct (Ascii.eqb a c) eqn:Ha.
  - injection H as <- <-. apply Ascii.eqb_eq in Ha as ->. reflexivity.
  - destruct (Str.split1 c s) as [[l' r']|]; [|discriminate].
    injection H as <- <-. change (String a s = String a (l' +:+ String c r')).
    f_equal. by apply IH.
Qed.

(** An abbreviation or a cluster that stands for the help option alone
    begins with [--h] or [-h]. *)
Lemma help_tuple_asked s os ex :
  get_option_tuples s = [(os, OHelp, ex)] → asks_help s = true.
Proof.
  unfold get_option_tuples, asks_help.
  destruct s as [|c0 [|c1 s2]]; try discriminate.
  destruct (Ascii.eqb c0 "-") eqn:Hc0; [|discriminate].
  apply Ascii.eqb_eq in Hc0 as ->.
  destruct (Ascii.eqb c1 "-") eqn:Hc1.
  - apply Ascii.eqb_eq in Hc1 as ->. cbn [andb].
    destruct s2 as [|c2 s3]; [vm_compute; discriminate|].
    destruct (Ascii.eqb c2 "h") eqn:Hh; [by apply Ascii.eqb_eq in Hh as ->|].
    destruct (Ascii.eqb c2 "=") eqn:He.
    { apply Ascii.eqb_eq in He as ->. simpl. discriminate. }
    destruct (match Str.split1 "=" (String "-" (String "-" (String c2 s3))) with
              | Some (l, r) => (l, Some r)
              | None => (String "-" (String "-" (String c2 s3)), None) end)
      as [pre ex'] eqn:Hpre.
    assert (Hshape : ∃ x, pre = String "-" (String "-" (String c2 x))).
    { simpl in Hpre. rewrite He in Hpre.
      destruct (Str.split1 "=" s3) as [[l r]|]; injection Hpre as <- <-; eauto. }
    destruct Hshape as [x ->].
    intros H.
    assert (Hin : (os, OHelp, ex) ∈ flat_map
              (λ p : string * Opt,
                 if Str.startswith (String "-" (String "-" (String c2 x))) p.1
                 then [(p, ex')] else []) option_strings)
      by (rewrite H; apply list_elem_of_singleton; reflexivity).
    apply list_elem_of_In, in_flat_map in Hin as (p & Hp & Ht).
    destruct (Str.startswith _ p.1) eqn:Hsw; [|destruct Ht].
    destruct Ht as [[= -> ->]|[]].
    apply list_elem_of_In, help_strings in Hp as [->| ->]; simpl in Hsw; [discriminate|].
    by rewrite Hh in Hsw.
  - cbn [andb]. destruct (Ascii.eqb c1 "h") eqn:Hh; [by apply Ascii.eqb_eq in Hh as ->|].
    intros H.
    assert (Hin : (os, OHelp, ex) ∈ flat_map
              (λ p : string * Opt,
                 if String.eqb p.1 (String "-" (String c1 ""))
                 then [(p, Some (Str.drop 2 (String "-" (String c1 s2))))]
                 else if Str.startswith (String "-" (String c1 s2)) p.1 then [(p, None)]
                 else []) option_strings)
      by (rewrite H; apply list_elem_of_singleton; reflexivity).
    apply list_elem_of_In, in_flat_map in Hin as (p & Hp & Ht).
    assert (Hp2 : p.2 = OHelp).
    { destruct (String.eqb p.1 _); [by destruct Ht as [[= -> _]|[]]|].
      destruct (Str.startswith _ p.1); [by destruct Ht as [[= -> _]|[]] | destruct Ht]. }
    destruct p as [o' k]. simpl in Hp2. subst k.
    apply list_elem_of_In, help_strings in Hp as [->| ->]; cbn [fst] in Ht.
    + assert (Heqb : String.eqb "-h" (String "-" (String c1 "")) = false).
      { apply String.eqb_neq. intros [= <-]. by vm_compute in Hh. }
      rewrite Heqb in Ht. simpl in Ht. rewrite Hh in Ht. destruct Ht.
    + assert (Heqb : String.eqb "--help" (String "-" (String c1 "")) = false).
      { apply String.eqb_neq. intros [=]. }
      rewrite Heqb in Ht. simpl in Ht. rewrite Hc1 in Ht. destruct Ht.
Qed.

(** Whatever [parse_optional] takes for the help option begins like it. *)
Lemma help_is_asked s os ex :
  parse_optional s = inr (Some (Some (os, OHelp, ex))) → asks_help s = true.
Proof.
  unfold parse_optional. destruct s as [|c0 s1]; [discriminate|].
  destruct (Ascii.eqb c0 "-") eqn:Hc0; [|discriminate].
  apply Ascii.eqb_eq in Hc0 as ->. cbn [negb].
  destruct (lookup_option (String "-" s1)) as [p|] eqn:Hl.
  { intros [= ->]. apply lookup_option_spec in Hl as [Hin Heq]. simpl in Heq.
    rewrite <- Heq. by apply help_strings in Hin as [->| ->]. }
  destruct (Nat.eqb _ 1); [discriminate|].
  destruct (Str.split1 "=" (String "-" s1)) as [[l r]|] eqn:Hsp.
  - destruct (lookup_option l) as [p|] eqn:Hl2.
    + intros [= -> <-]. apply lookup_option_spec in Hl2 as [Hin Heq]. simpl in Heq.
      apply split1_spec in Hsp. rewrite Hsp, <- Heq.
      by apply help_strings in Hin as [->| ->].
    + destruct (get_option_tuples _) as [|t [|t' ts]] eqn:Hts; [| |discriminate].
      * by destruct (negative_number _); [|destruct (Str.contains _ _)].
      * intros [= ->]. by apply help_tuple_asked in Hts.
  - destruct (get_option_tuples _) as [|t [|t' ts]] eqn:Hts; [| |discriminate].
    + by destruct (negative_number _); [|destruct (Str.contains _ _)].
    + intros [= ->]. by apply help_tuple_asked in Hts.
Qed.

(** A command line none of whose strings begins like the help option
    does not end with the help text. *)
Lemma no_help_unasked argv :
  Forall (λ s, asks_help s = false) argv → parse_args argv ≠ HelpExit.
Proof.
  intros Hall H. unfold parse_args in H.
  destruct (classify argv) as [e|items] eqn:Hcl; [discriminate|].
  apply help_taken in H as (s & os & ex & Hin).
  apply (option_classified argv items s _ Hcl) in Hin as [Hs Hopt].
  apply help_is_asked in Hopt. rewrite Forall_forall in Hall.
  specialize (Hall s Hs). congruence.
Qed.

End ArgparseFacts.

(** C8, as the specification states it, fails: the parser rejects
    [--nodownload --notrim], with the message argparse has for members of
    one exclusive group, and the process ends with status 2. *)
Lemma both_flags_rejected :
  Argparse.parse_args ["--nodownload"; "--notrim"] =
    Argparse.UsageError (Argparse.NotAllowedWith "--notrim" "--nodownload") ∧
  exit_status (main Demo.E ["--nodownload"; "--notrim"] Demo.w0) = 2.
Proof. split; reflexivity. Qed.

(** C8, amended.  [--notrim] and [--nodownload] are members of one
    mutually exclusive group: no namespace the parser returns, for any
    command line, has both [trim] and [download] switched off.  A command
    line on which both are written, in full or abbreviated, never gets
    past the parser: the process ends there, before the directory change
    and every other step, with the usage error (status 2) or, when help
    is asked for first, with the help text (status 0).  It is the usage
    error whenever no string of the command line begins with [-h] or
    [--h]; when the two flags are the whole command line the message
    names the second flag as not allowed with the first. *)
Theorem exclusive_flags_rejected (E : Env) (argv : list string) (w : World) :
  (∀ a, Argparse.parse_args argv = Argparse.Parsed a ∨
        Argparse.parse_args argv = Argparse.ParsedUnnamed a →
        trim a = true ∨ download a = true) ∧
  (∀ t d, t ∈ argv → d ∈ argv →
     ArgparseSteps.spelled Argparse.ONoTrim t →
     ArgparseSteps.spelled Argparse.ONoDownload d →
     (main E argv w = Help ∨ ∃ e, main E argv w = Usage e) ∧
     (Forall (λ s, ArgparseSteps.asks_help s = false) argv →
      ∃ e, main E argv w = Usage e ∧ exit_status (main E argv w) = 2)) ∧
  main E ["--notrim"; "--nodownload"] w =
    Usage (Argparse.NotAllowedWith "--nodownload" "--notrim") ∧
  main E ["--nodownload"; "--notrim"] w =
    Usage (Argparse.NotAllowedWith "--notrim" "--nodownload") ∧
  main E ["--notr"; "--nodown"] w =
    Usage (Argparse.NotAllowedWith "--nodownload" "--notrim") ∧
  main E ["-h"; "--notrim"; "--nodownload"] w = Help ∧
  exit_status (Usage (Argparse.NotAllowedWith "--nodownload" "--notrim")) = 2 ∧
  exit_status Help = 0.
Proof.
  split; [|split; [|by repeat split]].
  - intros a. apply ArgparseFacts.parsed_exclusive.
  - intros t d Ht Hd Hst Hsd.
    assert (Hends : main E argv w = Help ∨ ∃ e, main E argv w = Usage e).
    { unfold main.
      destruct (Argparse.parse_args argv) as [a|a| |e] eqn:Hp; [| |by left|by right; eauto].
      - destruct (ArgparseFacts.both_given_not_parsed argv t d a Ht Hd Hst Hsd).
        rewrite Hp. by left.
      - destruct (ArgparseFacts.both_given_not_parsed argv t d a Ht Hd Hst Hsd).
        rewrite Hp. by right. }
    split; [exact Hends|]. intros Hall.
    destruct Hends as [Hhelp|[e He]].
    + apply ArgparseFacts.no_help_unasked in Hall. unfold main in Hhelp.
      destruct (Argparse.parse_args argv) as [a|a| |e]; try done.
      * by destruct (script E a w).
      * unfold script_unnamed in Hhelp. destruct (download a).
        -- by destruct ((_ ;; checkpoint) w) as [[]?].
        -- by destruct (script E a w).
    + exists e. by rewrite He.
Qed.

(** ** The test bench meets the assumptions *)

Module DemoFacts.
Import Demo.

Lemma write_audio_spares p q c (m : FS) :
  Str.endswith p ".mp3" = false → write_audio q c m !! p = m !! p.
Proof.
  intros Hp. unfold write_audio. destruct (Str.endswith q ".mp3") eqn:Hq; [|reflexivity].
  apply lookup_insert_ne. congruence.
Qed.

(** The toy tools leave every file alone whose name does not end in
    [.mp3]. *)
Lemma tools_spare p argv : Str.endswith p ".mp3" = false → spared E p argv.
Proof.
  intros Hp d m. split; [|reflexivity]. simpl. unfold tools.
  destruct argv as [|tool args]; [reflexivity|].
  destruct (String.eqb tool "sox").
  - unfold sox. destruct args as [|inp [|outp rest]]; try reflexivity.
    destruct (m !! resolve d inp) as [c|]; [|reflexivity].
    destruct (is_audio c); [|reflexivity]. by apply write_audio_spares.
  - destruct (String.eqb tool "youtube-dl"); [|reflexivity].
    unfold youtube_dl. destruct (after "-a" args) as [lst|]; [|reflexivity].
    destruct (m !! resolve d lst) as [c|]; [|reflexivity].
    destruct (Str.startswith "http" c); [by apply write_audio_spares|].
    by destruct (String.eqb c "").
Qed.

Lemma write_audio_other p q c (m : FS) : p ≠ q → write_audio q c m !! p = m !! p.
Proof.
  intros Hne. unfold write_audio. destruct (Str.endswith q ".mp3"); [|reflexivity].
  by apply lookup_insert_ne.
Qed.

(** The toy [sox] writes its output file and no other. *)
Lemma sox_output_only : sox_writes_output_only E.
Proof.
  intros inp outp effects d m q Hq. split; [|reflexivity].
  change (proc E ("sox" :: inp :: outp :: effects) d m)
    with (sox (inp :: outp :: effects) d m).
  unfold sox. destruct (m !! resolve d inp) as [c|]; [|reflexivity].
  destruct (is_audio c); [|reflexivity]. by apply write_audio_other.
Qed.

End DemoFacts.

(** ** The theorems at work on the test bench *)


Lemma download_failure_is_fatal_witness :
  (script Demo.E Demo.a_broken Demo.w0).1 = 1 ∧
  err (script Demo.E Demo.a_broken Demo.w0).2 = [msg_download_failed] ∧
  (script Demo.E Demo.a_here Demo.w1).1 = 0.
Proof.
  assert (H1 : is_file (cwd (entered Demo.E Demo.a_broken Demo.w0)) (song_list Demo.a_broken)
                 (fs Demo.w0) = true) by (vm_compute; reflexivity).
  destruct (download_failure_is_fatal Demo.E Demo.a_broken Demo.w0 eq_refl eq_refl H1)
    as [Hfail _].
  assert (H2 : is_file (cwd (entered Demo.E Demo.a_here Demo.w1)) (song_list Demo.a_here)
                 (fs Demo.w1) = true) by (vm_compute; reflexivity).
  destruct (download_failure_is_fatal Demo.E Demo.a_here Demo.w1 eq_refl eq_refl H2)
    as [_ [Hgood _]].
  destruct Hfail as [Hscript _]; [vm_compute; discriminate|].
  destruct Hgood as [_ [Hstatus _]]; [vm_compute; reflexivity|].
  rewrite Hscript. split; [reflexivity|]. split; [reflexivity | exact Hstatus].
Defined.


Lemma list_untouched_witness :
  fs (script Demo.E Demo.a_noclear Demo.w0).2 !! list_path Demo.E Demo.a_noclear Demo.w0
  = Some "https://example.org/a".
Proof.
  destruct (list_untouched Demo.E Demo.a_noclear Demo.w0 (or_introl eq_refl)) as [_ H].
  rewrite H.
  - vm_compute; reflexivity.
  - right. split; [vm_compute; reflexivity | exact DemoFacts.sox_output_only].
  - intros _. apply DemoFacts.tools_spare. vm_compute; reflexivity.
Defined.

Lemma trimmer_invocations_witness :
  sigint Demo.w1 = None ∧
  length (log (trim_mp3s Demo.E true Demo.w1).2) = 7%nat.
Proof.
  split; [reflexivity|].
  destruct (trimmer_invocations Demo.E true Demo.w1 eq_refl) as [_ (w' & Hrun & Hlog)].
  rewrite Hrun. simpl. rewrite Hlog. vm_compute. reflexivity.
Defined.

Lemma trim_failures_do_not_abort_witness :
  sigint Demo.w1 = None ∧
  out (trim_one Demo.E false "/tmp/t.mp3" "b.mp3" Demo.w1).2 =
    ["WARNING: Failed to trim silence from b.mp3"] ∧
  out (trim_one Demo.E true "/tmp/t.mp3" "a.mp3" Demo.w1).2 = [] ∧
  (trim_mp3s Demo.E false Demo.w1).1 = Ok tt.
Proof.
  split; [reflexivity|].
  destruct (trim_failures_do_not_abort Demo.E false "/tmp/t.mp3" Demo.w1 eq_refl)
    as (Hone & _ & Hall).
  destruct (trim_failures_do_not_abort Demo.E true "/tmp/t.mp3" Demo.w1 eq_refl)
    as (Hquiet & _ & _).
  destruct (Hone "b.mp3") as (wb & Hb & _ & Hwarn & _).
  destruct (Hquiet "a.mp3") as (wa & Ha & _ & _ & _ & Hsilent).
  rewrite Hb, Ha. simpl. split; [|split; [|exact Hall]].
  - apply Hwarn. left. vm_compute. discriminate.
  - apply Hsilent; vm_compute; reflexivity.
Defined.

Lemma exclusive_flags_rejected_witness :
  ArgparseSteps.spelled Argparse.ONoTrim "--notr" ∧
  exit_status
    (main Demo.E ["--quiet"; "--notr"; "--song-list"; "x"; "--nodownload"] Demo.w0) = 2.
Proof.
  assert (H1 : "--notr" ∈ ["--quiet"; "--notr"; "--song-list"; "x"; "--nodownload"])
    by (apply list_elem_of_In; vm_compute; tauto).
  assert (H2 : "--nodownload" ∈ ["--quiet"; "--notr"; "--song-list"; "x"; "--nodownload"])
    by (apply list_elem_of_In; vm_compute; tauto).
  assert (H3 : ArgparseSteps.spelled Argparse.ONoTrim "--notr")
    by (exists "--notrim"; reflexivity).
  assert (H4 : ArgparseSteps.spelled Argparse.ONoDownload "--nodownload")
    by (exists "--nodownload"; reflexivity).
  assert (H5 : Forall (λ s, ArgparseSteps.asks_help s = false)
                 ["--quiet"; "--notr"; "--song-list"; "x"; "--nodownload"])
    by (repeat constructor).
  destruct (exclusive_flags_rejected Demo.E
              ["--quiet"; "--notr"; "--song-list"; "x"; "--nodownload"] Demo.w0)
    as (_ & H & _).
  destruct (H _ _ H1 H2 H3 H4) as [_ Hstatus].
  destruct (Hstatus H5) as (e & _ & Hs).
  split; [exact H3 | exact Hs].
Defined.


Lemma default_directory_first_witness :
  cwd Demo.w0 = "/work" ∧
  cwd (script Demo.E Demo.a_trim_only Demo.w0).2 = "/home/u/Downloads".
Proof.
  split; [reflexivity|].
  assert (H : sigint Demo.w0 ≠ Some O) by discriminate.
  exact (proj1 (proj2 (proj2
    (default_directory_first Demo.E Demo.a_trim_only Demo.w0 eq_refl H)))).
Defined.

(** * Further properties of the script *)

(** ** The command line of the downloader *)

(** X1. Whatever the options, [youtube-dl] is asked for the best-quality
    mp3 with the geo bypass first and for the list after [-a] with the
    title template last; in between come [-q --console-title] exactly
    when quiet, [--ignore-errors] exactly when force, and one of
    [--yes-playlist] and [--no-playlist], never both. *)
Theorem downloader_arguments (sl : string) (q f p : bool) :
  ∃ opts,
    youtube_dl sl q f p =
      ["youtube-dl"; "--extract-audio"; "--audio-format"; "mp3"; "--audio-quality"; "0";
       "--geo-bypass"] ++ opts ++
      ["--default-search"; "ytsearch"; "-a"; sl; "--output"; "%(title)s.%(ext)s"] ∧
    ("-q" ∈ opts ↔ q = true) ∧ ("--console-title" ∈ opts ↔ q = true) ∧
    ("--ignore-errors" ∈ opts ↔ f = true) ∧
    ("--yes-playlist" ∈ opts ↔ p = true) ∧ ("--no-playlist" ∈ opts ↔ p = false) ∧
    length opts = ((if q then 2 else 0) + (if f then 1 else 0) + 1)%nat.
Proof.
  exists ((if q then ["-q"; "--console-title"] else []) ++
          (if f then ["--ignore-errors"] else []) ++
          (if p then ["--yes-playlist"] else ["--no-playlist"])).
  split.
  { unfold youtube_dl, dl_args. simpl. by rewrite <- !app_assoc. }
  destruct q, f, p; simpl; repeat split; intros H; try done;
    repeat (apply elem_of_cons in H as [H|H]; [discriminate H|]);
    try (by apply not_elem_of_nil in H);
    repeat (first [apply list_elem_of_here | apply list_elem_of_further]).
Qed.

(** ** Exit status and messages *)

Section ExitsWith.

Context {A B : Type}.
Variable P : string → Prop.





End ExitsWith.

Section ExitsOfPrimitives.

Variable E : Env.
Variable P : string → Prop.

Ltac by_cases :=
  intros [c m o e l [[|n]|]]; (split; [reflexivity | intros msg [=]]).









End ExitsOfPrimitives.



(** ** What a run prints *)

Section Prints.

Context {A B : Type}.
Variable P : string → Prop.

Lemma prints_ret (a : A) : prints P (mret a : M A).
Proof. intros w. exists []. by rewrite app_nil_r. Qed.

Lemma prints_raise (e : Exn) : prints P (raise e : M A).
Proof. intros w. exists []. by rewrite app_nil_r. Qed.

Lemma prints_bind (m : M A) (k : A → M B) :
  prints P m → (∀ a, prints P (k a)) → prints P (m ≫= k).
Proof.
  intros Hm Hk w. unfold mbind, M_bind. specialize (Hm w).
  destruct (m w) as [[a|e] w1]; simpl in *; [|done].
  destruct Hm as (o1 & Ho1 & HP1). destruct (Hk a w1) as (o2 & Ho2 & HP2).
  exists (o1 ++ o2). rewrite Ho2, Ho1, app_assoc. split; [done|]. by apply Forall_app.
Qed.

Lemma prints_finally (m : M A) (fin : World → World) :
  prints P m → (∀ w, out (fin w) = out w) → prints P (finally m fin).
Proof.
  intros Hm Hfin w. unfold finally. specialize (Hm w).
  destruct (m w) as [r w1]; simpl in *. by rewrite Hfin.
Qed.

End Prints.

Section PrintsOfPrimitives.

Variable E : Env.
Variable P : string → Prop.

Ltac by_cases :=
  intros [c m o e l [[|n]|]]; simpl;
  first [ by (exists []; rewrite app_nil_r)
        | by (eexists [_]; split; [reflexivity | by constructor]) ].

Lemma prints_chdir d : prints P (chdir d).
Proof. by_cases. Qed.

Lemma prints_isfile p : prints P (isfile p).
Proof. by_cases. Qed.

Lemma prints_print s : P s → prints P (print s).
Proof. intros HP. by_cases. Qed.

Lemma prints_write_file p s : prints P (write_file p s).
Proof. by_cases. Qed.

Lemma prints_os_listdir : prints P os_listdir.
Proof. by_cases. Qed.

Lemma prints_NamedTemporaryFile : prints P (NamedTemporaryFile E).
Proof. by_cases. Qed.

Lemma prints_subprocess_run argv : prints P (subprocess_run E argv).
Proof.
  intros [c m o e l [[|n]|]]; unfold subprocess_run; simpl;
    try destruct (proc E argv c m); simpl; exists []; by rewrite app_nil_r.
Qed.

End PrintsOfPrimitives.

Lemma prints_steps (E : Env) (a : Args) : prints (may_print a) (steps E a).
Proof.
  unfold steps. apply prints_bind.
  { unfold check_dir. apply prints_bind.
    - destruct (negb (wd a)); [apply prints_chdir | apply prints_ret].
    - intros _. destruct (download a); [|apply prints_ret].
      apply prints_bind; [apply prints_isfile|]. intros present.
      destruct (negb present); [apply prints_raise | apply prints_ret]. }
  intros _. apply prints_bind.
  { destruct (download a); [|apply prints_ret].
    apply prints_bind.
    { unfold download_songs. apply prints_bind; [apply prints_subprocess_run|].
      intros rc. destruct (negb (rc =? 0)); [apply prints_raise | apply prints_ret]. }
    intros _. destruct (clear a); [|apply prints_ret].
    apply prints_bind; [apply prints_write_file|]. intros _.
    destruct (quiet a) eqn:Hq; simpl; [apply prints_ret|].
    apply prints_print. right. eauto. }
  intros _. destruct (trim a); [|apply prints_ret].
  unfold trim_mp3s. apply prints_bind; [apply prints_NamedTemporaryFile|]. intros tmp.
  apply prints_finally; [|by intros []].
  apply prints_bind; [apply prints_os_listdir|]. intros names.
  induction names as [|f rest IH]; simpl; [apply prints_ret|].
  apply prints_bind; [|intros _; exact IH].
  destruct (negb (Str.endswith f ".mp3")); [apply prints_ret|].
  unfold trim_one.
  apply prints_bind; [apply prints_subprocess_run|]. intros ret1.
  apply prints_bind; [apply prints_subprocess_run|]. intros ret2.
  destruct (negb (ret1 =? 0) || negb (ret2 =? 0)).
  { apply prints_print. left. eauto. }
  destruct (quiet a) eqn:Hq; simpl; [apply prints_ret|].
  apply prints_print. right. eauto.
Qed.

(** X3. Every line a run prints, interrupted or not, is a trim-failure
    warning, the interrupt warning, or, when quiet mode is off, the
    list-cleared notice or a trim notice.  With [--quiet] a run prints
    nothing but warnings. *)
Theorem quiet_prints_only_warnings (E : Env) (a : Args) (w : World) :
  ∃ lines,
    out (script E a w).2 = out w ++ lines ∧
    Forall (λ s, s = msg_interrupted ∨ may_print a s) lines ∧
    (quiet a = true →
     Forall (λ s, s = msg_interrupted ∨ ∃ f, s = msg_trim_failed f) lines).
Proof.
  destruct (prints_steps E a w) as (o & Ho & HP). unfold script.
  assert (Hq : ∀ l, Forall (λ s, s = msg_interrupted ∨ may_print a s) l → quiet a = true →
                    Forall (λ s, s = msg_interrupted ∨ ∃ f, s = msg_trim_failed f) l).
  { intros l Hl Hquiet. eapply Forall_impl; [exact Hl|]. simpl.
    intros s [?|[?|[? _]]]; [by left | by right | congruence]. }
  assert (Ho' : Forall (λ s, s = msg_interrupted ∨ may_print a s) o).
  { eapply Forall_impl; [exact HP|]. by right. }
  destruct (steps E a w) as [[[]|[msg|]] w1]; simpl in *.
  - exists o. split; [done|]. split; [done | by apply Hq].
  - exists o. split; [done|]. split; [done | by apply Hq].
  - exists (o ++ [msg_interrupted]). rewrite Ho, app_assoc. split; [done|].
    assert (Forall (λ s, s = msg_interrupted ∨ may_print a s) (o ++ [msg_interrupted])).
    { apply Forall_app. split; [done|]. constructor; [by left | constructor]. }
    split; [done | by apply Hq].
Qed.

(** ** Without the trimmer *)

(** X4. A run with [--notrim], interrupted or not, creates no temporary
    file, lists no directory and starts no [sox]: the only process it may
    start is [youtube-dl] with the arguments of its options. *)
Theorem notrim_starts_no_sox (E : Env) (a : Args) (w : World) :
  trim a = false →
  ∃ evs,
    log (script E a w).2 = log w ++ evs ∧
    Forall (λ e, match e with
                 | EMkTemp _ | EUnlink _ | EListDir _ => False
                 | ESpawn argv =>
                     argv = youtube_dl (song_list a) (quiet a) (force a) (playlist a)
                 | _ => True
                 end) evs.
Proof.
  intros Ht. rewrite script_log. destruct (steps_footprint E a w) as (evs & Hl & HP).
  exists evs. split; [done|].
  assert (Himp : ∀ d l, Forall (allowed a d) l →
            Forall (λ e, match e with
                         | EMkTemp _ | EUnlink _ | EListDir _ => False
                         | ESpawn argv =>
                             argv = youtube_dl (song_list a) (quiet a) (force a) (playlist a)
                         | _ => True
                         end) l).
  { intros d l Hl'. eapply Forall_impl; [exact Hl'|]. intros [] Hx; simpl in *; try done.
    - by destruct Hx as [[_ ?]|[? _]]; [|congruence].
    - congruence.
    - destruct Hx. congruence.
    - congruence. }
  destruct (wd a).
  - by eapply Himp.
  - destruct HP as [ -> |(evs' & -> & HP)]; [constructor|].
    constructor; [done|]. by eapply Himp.
Qed.

(** ** The temporary file *)

(** X5. A run of the trimmer that gets as far as creating its temporary
    file removes it again, whether the loop ends or a Ctrl-C cuts it
    short: the file is gone at the end and the removal is the last call.
    If the Ctrl-C arrives before the file is created, nothing happens. *)
Theorem temporary_file_removed (E : Env) (quiet : bool) (w : World) :
  let tmp := tmp_of E (fs w) in
  (sigint w ≠ Some O →
   fs (trim_mp3s E quiet w).2 !! tmp = None ∧
   last (log (trim_mp3s E quiet w).2) = Some (EUnlink tmp) ∧
   ∃ evs, log (trim_mp3s E quiet w).2 = log w ++ EMkTemp tmp :: evs) ∧
  (sigint w = Some O →
   trim_mp3s E quiet w = (Raise KeyboardInterrupt, set_sigint None w)).
Proof.
  intros tmp. split.
  - intros Hs.
    assert (Hrun : ∃ i,
      trim_mp3s E quiet w =
      finally (names ← os_listdir; trim_loop E quiet tmp names) (close_tmp tmp)
              (mkWorld (cwd w) (<[tmp := ""]> (fs w)) (out w) (err w)
                       (log w ++ [EMkTemp tmp]) i)).
    { destruct w as [c m o e l [[|n]|]]; [done| |]; eexists; reflexivity. }
    destruct Hrun as [i ->]. unfold finally.
    match goal with |- context [(names ← os_listdir; trim_loop E quiet tmp names) ?w1] =>
      destruct (emits_bind (cwd w) (λ _, True) os_listdir (trim_loop E quiet tmp)
                  (emits_os_listdir (cwd w) _ I)
                  (λ names, emits_trim_loop E (cwd w) _ quiet tmp names (λ _, conj I I))
                  w1 eq_refl) as (_ & evs & Hl & _);
      destruct ((names ← os_listdir; trim_loop E quiet tmp names) w1) as [r w2]
    end.
    simpl in *. split; [apply lookup_delete_eq|]. split; [apply last_snoc|].
    exists (evs ++ [EUnlink tmp]). rewrite Hl. by rewrite <- !app_assoc.
  - intros Hs. destruct w as [c m o e l s]. simpl in Hs. subst s. reflexivity.
Qed.

(** ** When the list is cleared *)

(** A run that does not find its list, or whose download fails, issues
    no open-for-write, Ctrl-C or not. *)
Lemma no_clearing_without_success (E : Env) (a : Args) (w : World) :
  download a = true →
  is_file (cwd (entered E a w)) (song_list a) (fs w) = false ∨
  (proc E (youtube_dl (song_list a) (quiet a) (force a) (playlist a))
        (cwd (entered E a w)) (fs w)).2 ≠ 0 →
  ∃ evs, log (steps E a w).2 = log w ++ evs ∧
         Forall (λ e, match e with EOpenW _ => False | _ => True end) evs.
Proof.
  intros Hd Hfail. destruct w as [c m o e l s]. unfold entered in Hfail.
  unfold steps, check_dir, download_songs. rewrite Hd.
  set (cmd := youtube_dl (song_list a) (quiet a) (force a) (playlist a)) in *.
  destruct (wd a); simpl in Hfail; simpl negb; cbv iota.
  - destruct (is_file c (song_list a) m) eqn:Hfile.
    + destruct Hfail as [?|Hrc]; [done|].
      destruct (proc E cmd c m) as [m1 rc] eqn:Hp. simpl in Hrc.
      assert (Hz : (rc =? 0) = false) by (by apply Z.eqb_neq).
      destruct s as [[|[|n]]|]; unfold mbind, M_bind, mret, M_ret, subprocess_run; simpl;
        rewrite ?Hfile; simpl; rewrite ?Hp, ?Hz; simpl; rewrite <- ?app_assoc;
        (eexists; split; [try reflexivity; by rewrite app_nil_r|]); repeat constructor.
    + destruct s as [[|n]|]; unfold mbind, M_bind, mret, M_ret; simpl;
        rewrite ?Hfile; simpl; rewrite <- ?app_assoc;
        (eexists; split; [try reflexivity; by rewrite app_nil_r|]); repeat constructor.
  - destruct (is_file (downloads_dir E) (song_list a) m) eqn:Hfile.
    + destruct Hfail as [?|Hrc]; [done|].
      destruct (proc E cmd (downloads_dir E) m) as [m1 rc] eqn:Hp. simpl in Hrc.
      assert (Hz : (rc =? 0) = false) by (by apply Z.eqb_neq).
      destruct s as [[|[|[|n]]]|]; unfold mbind, M_bind, mret, M_ret, subprocess_run; simpl;
        rewrite ?Hfile; simpl; rewrite ?Hp, ?Hz; simpl; rewrite <- ?app_assoc;
        (eexists; split; [try reflexivity; by rewrite app_nil_r|]); repeat constructor.
    + destruct s as [[|[|n]]|]; unfold mbind, M_bind, mret, M_ret; simpl;
        rewrite ?Hfile; simpl; rewrite <- ?app_assoc;
        (eexists; split; [try reflexivity; by rewrite app_nil_r|]); repeat constructor.
Qed.

(** X6. In every run, interrupted or not, the script's own
    [open(..., 'w')], the clearing of the list, is issued on the path of
    the song list and on no other, and only with the download and the
    clearing on, after it found the list and [youtube-dl] ran to its end
    with exit status 0.  (The temporary file of the trimmer is made by
    [NamedTemporaryFile], which the log records as a call of its own
    kind.) *)
Theorem list_cleared_only_after_success (E : Env) (a : Args) (w : World) (q : string)
    (evs : list Event) :
  log (script E a w).2 = log w ++ evs → EOpenW q ∈ evs →
  q = list_path E a w ∧ download a = true ∧ clear a = true ∧
  is_file (cwd (entered E a w)) (song_list a) (fs w) = true ∧
  (proc E (youtube_dl (song_list a) (quiet a) (force a) (playlist a))
        (cwd (entered E a w)) (fs w)).2 = 0.
Proof.
  intros Hlog Hq. rewrite script_log in Hlog.
  assert (Hallowed : allowed a (cwd (entered E a w)) (EOpenW q)).
  { destruct (steps_footprint E a w) as (evs' & Hl & HP).
    rewrite Hlog in Hl. apply app_inv_head in Hl as <-. unfold entered.
    destruct (wd a).
    - rewrite Forall_forall in HP. by apply HP.
    - destruct HP as [ -> |(evs' & -> & HP)]; [by apply not_elem_of_nil in Hq|].
      apply elem_of_cons in Hq as [?|Hq]; [done|].
      rewrite Forall_forall in HP. by apply HP. }
  destruct Hallowed as (Hd & Hc & ->). split; [done|]. split; [done|]. split; [done|].
  assert (Hnot : ¬ (is_file (cwd (entered E a w)) (song_list a) (fs w) = false ∨
                    (proc E (youtube_dl (song_list a) (quiet a) (force a) (playlist a))
                          (cwd (entered E a w)) (fs w)).2 ≠ 0)).
  { intros Hfail.
    destruct (no_clearing_without_success E a w Hd Hfail) as (evs' & Hl & HP).
    rewrite Hlog in Hl. apply app_inv_head in Hl as <-.
    rewrite Forall_forall in HP. by apply HP in Hq. }
  split.
  - destruct (is_file _ _ _); [done|]. destruct Hnot. by left.
  - destruct (decide ((proc E (youtube_dl (song_list a) (quiet a) (force a) (playlist a))
                            (cwd (entered E a w)) (fs w)).2 = 0)); [done|].
    destruct Hnot. by right.
Qed.

(** ** Which entries are trimmed *)

Lemma mp3s_spec f names : f ∈ mp3s names ↔ f ∈ names ∧ Str.endswith f ".mp3" = true.
Proof.
  unfold mp3s. rewrite !list_elem_of_In.
  exact (filter_In (λ x, Str.endswith x ".mp3") f names).
Qed.

Lemma sox_calls_of_entry tmp f names :
  f ∈ mp3s names →
  ∃ l1 l2, sox_calls tmp names =
           l1 ++ [ESpawn (sox_end f tmp); ESpawn (sox_start f tmp)] ++ l2.
Proof.
  unfold sox_calls. induction (mp3s names) as [|x l IH]; intros Hf.
  - by apply not_elem_of_nil in Hf.
  - apply elem_of_cons in Hf as [->|Hf].
    + exists [], (List.flat_map (λ f, [ESpawn (sox_end f tmp); ESpawn (sox_start f tmp)]) l).
      reflexivity.
    + destruct (IH Hf) as (l1 & l2 & Heq).
      exists (ESpawn (sox_end x tmp) :: ESpawn (sox_start x tmp) :: l1), l2.
      simpl. by rewrite Heq.
Qed.

Lemma trim_results_without_audio E tmp c (m : FS) names :
  mp3s names = [] → trim_results E tmp c m names = ([], m).
Proof.
  induction names as [|f rest IH]; simpl; [done|].
  unfold mp3s. simpl. destruct (Str.endswith f ".mp3"); [discriminate|]. exact IH.
Qed.

(** X7. In a directory without [.mp3] entries the trimmer (no Ctrl-C
    interfering, its temporary file a new one) starts no process and
    prints nothing, and leaves every file as it was: all it does is
    create its temporary file, list the directory and remove the file
    again. *)
Theorem trimmer_without_audio (E : Env) (quiet : bool) (w : World) :
  let tmp := tmp_of E (fs w) in
  sigint w = None → fs w !! tmp = None →
  mp3s (listdir (cwd w) (<[tmp := ""]> (fs w))) = [] →
  trim_mp3s E quiet w =
    (Ok tt, mkWorld (cwd w) (fs w) (out w) (err w)
                    (log w ++ [EMkTemp tmp; EListDir (cwd w); EUnlink tmp]) None).
Proof.
  intros tmp Hs Hnew Hnone. rewrite (calm_world w Hs). rewrite trim_mp3s_calm. simpl.
  fold tmp. rewrite trim_results_without_audio by done.
  unfold sox_calls. rewrite Hnone. simpl.
  rewrite app_nil_r. unfold calm. f_equal. f_equal.
  by apply delete_insert_id.
Qed.

(** X8. Run in the directory of temporary files, the trimmer works on
    its own temporary file too: the file is created, with a name in
    [.mp3], before the directory is listed, so [sox] is run from it to
    itself and back. *)
Theorem trimmer_trims_its_temporary_file (E : Env) (quiet : bool) (w : World)
    (name : string) :
  let tmp := tmp_of E (fs w) in
  sigint w = None →
  entry_under (cwd w) tmp = Some name → Str.endswith name ".mp3" = true →
  ∃ l1 l2,
    log (trim_mp3s E quiet w).2 =
      l1 ++ [ESpawn ["sox"; name; tmp; "reverse"; "silence"; "1"; "0.1"; "0.1%"; "reverse"];
             ESpawn ["sox"; tmp; name; "silence"; "1"; "0.1"; "0.1%"]] ++ l2.
Proof.
  intros tmp Hs Hentry Hmp3. rewrite (calm_world w Hs). rewrite trim_mp3s_calm. simpl.
  fold tmp.
  destruct (sox_calls_of_entry tmp name (listdir (cwd w) (<[tmp := ""]> (fs w))))
    as (l1 & l2 & ->).
  { apply mp3s_spec. split; [|done]. apply listdir_spec. exists tmp.
    split; [|done]. rewrite lookup_insert_eq. eauto. }
  exists (log w ++ [EMkTemp tmp; EListDir (cwd w)] ++ l1), (l2 ++ [EUnlink tmp]).
  by rewrite <- !app_assoc.
Qed.

(** The two runs on an entry that is there when the trimmer starts. *)
Lemma trim_log_of_entry (E : Env) (quiet : bool) c (m : FS) o e l k f :
  is_Some (m !! k) → entry_under c k = Some f → Str.endswith f ".mp3" = true →
  ∃ tmp l1 l2,
    log (trim_mp3s E quiet (calm c m o e l)).2 =
    l ++ l1 ++ [ESpawn (sox_end f tmp); ESpawn (sox_start f tmp)] ++ l2.
Proof.
  intros Hk Hentry Hmp3. rewrite trim_mp3s_calm.
  destruct (sox_calls_of_entry (tmp_of E m) f (listdir c (<[tmp_of E m := ""]> m)))
    as (l1 & l2 & Hcalls).
  { apply mp3s_spec. split; [|done]. apply listdir_spec. exists k. split; [|done].
    apply lookup_insert_is_Some'. by right. }
  exists (tmp_of E m), ([EMkTemp (tmp_of E m); EListDir c] ++ l1), (l2 ++ [EUnlink (tmp_of E m)]).
  unfold calm. cbn [log snd]. rewrite Hcalls. by rewrite <- !app_assoc.
Qed.

(** X9. What the downloader leaves in the working directory is trimmed
    in the same run: the directory is listed after the download and the
    clearing of the list, so every entry with a name in [.mp3] that
    exists once [youtube-dl] has returned gets its two [sox] runs, after
    the [youtube-dl] run. *)
Theorem downloads_are_trimmed (E : Env) (a : Args) (w : World) (k f : string) :
  let d := cwd (entered E a w) in
  let cmd := youtube_dl (song_list a) (quiet a) (force a) (playlist a) in
  download a = true → trim a = true → sigint w = None →
  is_file d (song_list a) (fs w) = true →
  (proc E cmd d (fs w)).2 = 0 →
  is_Some ((proc E cmd d (fs w)).1 !! k) →
  entry_under d k = Some f → Str.endswith f ".mp3" = true →
  ∃ tmp l1 l2,
    log (script E a w).2 =
      log w ++ l1 ++ [ESpawn (sox_end f tmp); ESpawn (sox_start f tmp)] ++ l2 ∧
    ESpawn cmd ∈ l1.
Proof.
  intros d cmd Hd Ht Hs Hfile Hrc Hk Hentry Hmp3. subst d.
  rewrite (calm_world w Hs) in *. rewrite entered_calm in *. simpl in Hfile, Hrc, Hk, Hentry.
  set (c := if wd a then cwd w else downloads_dir E) in *.
  rewrite script_log.
  rewrite (steps_found_calm E a (cwd w) (fs w) (out w) (err w) (log w) Hd Hfile).
  fold c. rewrite fetch_calm. fold cmd. rewrite Hrc.
  change (negb (0 =? 0)) with false. cbv beta iota. rewrite Ht.
  match goal with
  | |- context [trim_mp3s E (quiet a) (calm ?c1 ?m1 ?o1 ?e1 ?l1)] =>
      destruct (trim_log_of_entry E (quiet a) c1 m1 o1 e1 l1 k f) as (tmp & l3 & l4 & Hlog);
        [|done|done|]
  end.
  { destruct (clear a); [|done]. apply lookup_insert_is_Some'. by right. }
  rewrite Hlog. exists tmp.
  exists ((if wd a then [] else [EChdir (downloads_dir E)]) ++
          [EIsFile (resolve c (song_list a))] ++ [ESpawn cmd] ++
          (if clear a then [EOpenW (resolve c (song_list a))] else []) ++ l3), l4.
  unfold calm. cbn [log]. split.
  - by rewrite <- !app_assoc.
  - apply elem_of_app. right. apply elem_of_cons. right. apply elem_of_cons. by left.
Qed.

(** ** Options that do nothing without the download *)

(** X10. With [--nodownload] the run is decided by [--wd], [--quiet]
    and [--notrim] alone: [--song-list], [--playlist], [--force] and
    [--noclear] change nothing at all, in any run. *)
Theorem nodownload_ignores_download_options (E : Env) (a b : Args) (w : World) :
  download a = false → download b = false →
  wd a = wd b → quiet a = quiet b → trim a = trim b →
  script E a w = script E b w.
Proof.
  intros Ha Hb Hwd Hq Ht. unfold script, steps, check_dir.
  rewrite Ha, Hb, Hwd, Hq, Ht. reflexivity.
Qed.

(** ** Command lines of flags *)

Module FlagsFacts.
Import Argparse Flags.

Lemma classify_flags argv :
  Forall (λ s, s ∈ flag_strings) argv → classify argv = inr (flag_item <$> argv).
Proof.
  induction 1 as [|s argv Hs _ IH]; [reflexivity|].
  simpl. rewrite IH. unfold flag_strings in Hs.
  repeat (apply elem_of_cons in Hs as [->|Hs]; [reflexivity|]).
  by apply not_elem_of_nil in Hs.
Qed.

Lemma consume_flags argv : ∀ st,
  Forall (λ s, s ∈ flag_strings) argv → tidy st →
  let a := switched argv (ns st) in
  if negb (trim a) && negb (download a)
  then ∃ e, consume (flag_item <$> argv) st = UsageError e
  else consume (flag_item <$> argv) st = Parsed a.
Proof.
  induction argv as [|s argv IH]; intros st Hall (H1 & H2 & H3 & H4 & H5).
  - destruct st as [[sl pl fo qu wdd tr dl cl] sn sd ex un]. simpl in *. subst.
    unfold switched, has. simpl. rewrite !orb_false_r, !andb_true_r.
    destruct tr, dl; simpl; try reflexivity. by destruct H3.
  - apply Forall_cons in Hall as [Hs Hall]. unfold flag_strings in Hs.
    destruct st as [[sl pl fo qu wdd tr dl cl] sn sd ex un].
    simpl in H1, H2, H3, H4, H5. subst.
    repeat (apply elem_of_cons in Hs as [->|Hs]);
      [..|by apply not_elem_of_nil in Hs].
    + specialize (IH (mkPState (mkArgs sl true fo qu wdd tr dl cl) (negb tr) (negb dl) [] false) Hall).
      simpl in IH. unfold switched, has in *. simpl in *.
      rewrite ?orb_true_r in *. by apply IH.
    + specialize (IH (mkPState (mkArgs sl pl true qu wdd tr dl cl) (negb tr) (negb dl) [] false) Hall).
      simpl in IH. unfold switched, has in *. simpl in *.
      rewrite ?orb_true_r in *. by apply IH.
    + specialize (IH (mkPState (mkArgs sl pl fo true wdd tr dl cl) (negb tr) (negb dl) [] false) Hall).
      simpl in IH. unfold switched, has in *. simpl in *.
      rewrite ?orb_true_r in *. by apply IH.
    + specialize (IH (mkPState (mkArgs sl pl fo qu true tr dl cl) (negb tr) (negb dl) [] false) Hall).
      simpl in IH. unfold switched, has in *. simpl in *.
      rewrite ?orb_true_r in *. by apply IH.
    + unfold switched, has. simpl. rewrite andb_false_r. simpl.
      destruct dl; simpl.
      * specialize (IH (mkPState (mkArgs sl pl fo qu wdd false true cl) true false [] false) Hall).
        simpl in IH. unfold switched, has in *. simpl in *.
        apply IH. repeat split; auto.
      * eauto.
    + unfold switched, has. simpl. rewrite andb_false_r. simpl. rewrite andb_true_r.
      destruct tr; simpl.
      * specialize (IH (mkPState (mkArgs sl pl fo qu wdd true false cl) false true [] false) Hall).
        simpl in IH. unfold switched, has in *. simpl in *.
        rewrite ?andb_true_r in IH. apply IH. repeat split; auto.
      * eauto.
    + specialize (IH (mkPState (mkArgs sl pl fo qu wdd tr dl false) (negb tr) (negb dl) [] false) Hall).
      simpl in IH. unfold switched, has in *. simpl in *.
      rewrite ?andb_false_r in *. by apply IH.
Qed.

End FlagsFacts.

(** X11. On a command line made of the seven flags spelled in full,
    in any order and any number of times, the parser fails exactly when
    both [--notrim] and [--nodownload] occur; otherwise every destination
    is set by the presence of its own flag and by nothing else, and the
    list keeps its default name.  Two such command lines with the same
    flags give the same namespace. *)
Theorem flags_set_their_destinations (argv : list string) :
  Forall (λ s, s ∈ Flags.flag_strings) argv →
  (Flags.has "--notrim" argv && Flags.has "--nodownload" argv = true →
   ∃ e, Argparse.parse_args argv = Argparse.UsageError e) ∧
  (Flags.has "--notrim" argv && Flags.has "--nodownload" argv = false →
   Argparse.parse_args argv = Argparse.Parsed (Flags.flags_of argv) ∧
   ∀ argv', Forall (λ s, s ∈ Flags.flag_strings) argv' →
            (∀ s, Flags.has s argv' = Flags.has s argv) →
            Argparse.parse_args argv' = Argparse.parse_args argv).
Proof.
  assert (Hone : ∀ l, Forall (λ s, s ∈ Flags.flag_strings) l →
            if Flags.has "--notrim" l && Flags.has "--nodownload" l
            then ∃ e, Argparse.parse_args l = Argparse.UsageError e
            else Argparse.parse_args l = Argparse.Parsed (Flags.flags_of l)).
  { intros l Hl. unfold Argparse.parse_args. rewrite FlagsFacts.classify_flags by done.
    pose proof (FlagsFacts.consume_flags l Argparse.initial Hl) as H.
    assert (Htidy : Flags.tidy Argparse.initial) by (repeat split; auto).
    specialize (H Htidy). simpl in H. rewrite !negb_involutive in H. exact H. }
  intros Hall. split.
  - intros Hboth. specialize (Hone argv Hall). by rewrite Hboth in Hone.
  - intros Hnot. pose proof (Hone argv Hall) as H. rewrite Hnot in H. split; [exact H|].
    intros argv' Hall' Hsame. specialize (Hone argv' Hall').
    rewrite !Hsame, Hnot in Hone. rewrite Hone, H.
    unfold Flags.flags_of. by rewrite !Hsame.
Qed.

(** ** The name of the list *)

(** X12. The name given with [--song-list] is taken as it is written:
    with [=] any string but [--], as a separate argument any string that
    does not begin with a dash.  The same string is then the file the
    script looks up and the argument it hands to [youtube-dl] after
    [-a].  [--song-list=--] leaves the empty list in place of a name, and
    a run with the download on then dies in [check_dir], before any
    look-up of the list. *)
Theorem song_list_reaches_the_downloader (E : Env) (v : string) (w : World) :
  (v ≠ "--" →
   Argparse.parse_args ["--wd"; "--song-list=" +:+ v] =
     Argparse.Parsed (mkArgs v false false false true true true true)) ∧
  (Str.startswith "-" v = false →
   Argparse.parse_args ["--wd"; "--song-list"; v] =
     Argparse.Parsed (mkArgs v false false false true true true true)) ∧
  (v ≠ "--" → sigint w = None → is_file (cwd w) v (fs w) = true →
   ∃ s w' evs,
     main E ["--wd"; "--song-list=" +:+ v] w = Ran s w' ∧
     log w' =
       log w ++
       [EIsFile (resolve (cwd w) v);
        ESpawn ["youtube-dl"; "--extract-audio"; "--audio-format"; "mp3";
                "--audio-quality"; "0"; "--geo-bypass"; "--no-playlist";
                "--default-search"; "ytsearch"; "-a"; v; "--output";
                "%(title)s.%(ext)s"]] ++ evs) ∧
  Argparse.parse_args ["--wd"; "--song-list=--"] =
    Argparse.ParsedUnnamed (mkArgs "song-list.txt" false false false true true true true) ∧
  (sigint w = None → main E ["--wd"; "--song-list=--"] w = Died w).
Proof.
  assert (Hparse : v ≠ "--" →
                   Argparse.parse_args ["--wd"; "--song-list=" +:+ v] =
                   Argparse.Parsed (mkArgs v false false false true true true true)).
  { intros Hv. unfold Argparse.parse_args.
    assert (Hcl : Argparse.classify ["--wd"; "--song-list=" +:+ v] =
              inr [("--wd", Argparse.COption ("--wd", Argparse.OWd, None));
                   ("--song-list=" +:+ v,
                    Argparse.COption ("--song-list", Argparse.OSongList, Some v))])
      by reflexivity.
    rewrite Hcl. cbn [Argparse.consume Argparse.take_flag].
    unfold Argparse.get_values.
    assert (Hneq : String.eqb v "--" = false) by (by apply String.eqb_neq).
    rewrite Hneq. reflexivity. }
  split; [exact Hparse|]. split; [|split; [|split]].
  - intros Hv. unfold Argparse.parse_args.
    assert (Hcl : Argparse.classify ["--wd"; "--song-list"; v] =
              inr [("--wd", Argparse.COption ("--wd", Argparse.OWd, None));
                   ("--song-list",
                    Argparse.COption ("--song-list", Argparse.OSongList, None));
                   (v, Argparse.CArg)]).
    { destruct v as [|x v]; [reflexivity|].
      simpl in Hv. rewrite andb_true_r in Hv.
      assert (Hx : Ascii.eqb x "-" = false).
      { rewrite Ascii.eqb_sym. exact Hv. }
      cbn -[Argparse.parse_optional String.eqb].
      assert (Heq : String.eqb (String x v) "--" = false).
      { simpl. by rewrite Hx. }
      rewrite Heq.
      assert (Hopt : Argparse.parse_optional (String x v) = inr None).
      { unfold Argparse.parse_optional. by rewrite Hx. }
      rewrite Hopt. reflexivity. }
    rewrite Hcl. cbn [Argparse.consume Argparse.take_flag].
    unfold Argparse.get_values.
    assert (Hneq : String.eqb v "--" = false).
    { destruct v as [|x v]; [reflexivity|]. simpl in Hv. rewrite andb_true_r in Hv.
      assert (Hx : Ascii.eqb x "-" = false) by (rewrite Ascii.eqb_sym; exact Hv).
      simpl. by rewrite Hx. }
    rewrite Hneq. reflexivity.
  - intros Hv Hs Hfile. unfold main. rewrite (Hparse Hv).
    set (a := mkArgs v false false false true true true true).
    rewrite (calm_world w Hs). unfold script.
    rewrite (steps_found_calm E a (cwd w) (fs w) (out w) (err w) (log w) eq_refl Hfile).
    rewrite fetch_calm.
    change (youtube_dl (song_list a) (quiet a) (force a) (playlist a))
      with ["youtube-dl"; "--extract-audio"; "--audio-format"; "mp3";
            "--audio-quality"; "0"; "--geo-bypass"; "--no-playlist";
            "--default-search"; "ytsearch"; "-a"; v; "--output"; "%(title)s.%(ext)s"].
    match goal with |- context [proc E ?cmd ?c ?m] => set (r := proc E cmd c m) end.
    change (wd a) with true. change (clear a) with true. change (quiet a) with false.
    change (song_list a) with v. change (trim a) with true. cbv iota.
    destruct (negb (r.2 =? 0)).
    + eexists _, _, []. split; [reflexivity|]. unfold calm, add_err. cbn [log].
      by rewrite <- !app_assoc.
    + match goal with |- context [trim_mp3s E false (calm ?c ?m ?o ?e ?l)] =>
        pose proof (trim_mp3s_calm E false c m o e l) as Htrim end.
      cbv zeta in Htrim. rewrite Htrim.
      eexists _, _, _. split; [reflexivity|]. unfold calm. cbn [log].
      rewrite <- !app_assoc. reflexivity.
  - reflexivity.
  - intros Hs. rewrite (calm_world w Hs). reflexivity.
Qed.

(** ** The further properties at work on the test bench *)


Lemma quiet_prints_only_warnings_witness :
  quiet Demo.a_trim_only = true ∧
  Forall (λ s, s = msg_interrupted ∨ ∃ f, s = msg_trim_failed f)
         (out (script Demo.E Demo.a_trim_only Demo.w1).2).
Proof.
  split; [reflexivity|].
  destruct (quiet_prints_only_warnings Demo.E Demo.a_trim_only Demo.w1)
    as (lines & Hout & _ & Hquiet).
  rewrite Hout. exact (Hquiet eq_refl).
Defined.

Lemma notrim_starts_no_sox_witness :
  log (script Demo.E (mkArgs "song-list.txt" false false false false false true true)
         Demo.w0).2 =
  [EChdir "/home/u/Downloads"; EIsFile "/home/u/Downloads/song-list.txt";
   ESpawn (youtube_dl "song-list.txt" false false false);
   EOpenW "/home/u/Downloads/song-list.txt"].
Proof.
  destruct (notrim_starts_no_sox Demo.E
              (mkArgs "song-list.txt" false false false false false true true)
              Demo.w0 eq_refl) as (evs & Hlog & _).
  rewrite Hlog. vm_compute in Hlog. rewrite <- Hlog. reflexivity.
Defined.

Lemma temporary_file_removed_witness :
  sigint Demo.w_sigint ≠ Some O ∧
  fs (trim_mp3s Demo.E true Demo.w_sigint).2 !! tmp_of Demo.E (fs Demo.w_sigint) = None.
Proof.
  assert (H : sigint Demo.w_sigint ≠ Some O) by discriminate.
  split; [exact H|].
  exact (proj1 (proj1 (temporary_file_removed Demo.E true Demo.w_sigint) H)).
Defined.

Lemma list_cleared_only_after_success_witness :
  EOpenW "/home/u/Downloads/song-list.txt" ∈ log (script Demo.E Argparse.defaults Demo.w0).2 ∧
  (proc Demo.E (youtube_dl "song-list.txt" false false false) "/home/u/Downloads"
        (fs Demo.w0)).2 = 0.
Proof.
  assert (Hin : EOpenW "/home/u/Downloads/song-list.txt"
                ∈ log (script Demo.E Argparse.defaults Demo.w0).2).
  { apply list_elem_of_In. vm_compute. tauto. }
  split; [exact Hin|].
  exact (proj2 (proj2 (proj2 (proj2
    (list_cleared_only_after_success Demo.E Argparse.defaults Demo.w0
       "/home/u/Downloads/song-list.txt"
       (log (script Demo.E Argparse.defaults Demo.w0).2) eq_refl Hin))))).
Defined.

Lemma trimmer_without_audio_witness :
  fs (trim_mp3s Demo.E false Demo.w0).2 = fs Demo.w0 ∧
  out (trim_mp3s Demo.E false Demo.w0).2 = [].
Proof.
  assert (H : trim_mp3s Demo.E false Demo.w0 =
              (Ok tt, mkWorld (cwd Demo.w0) (fs Demo.w0) (out Demo.w0) (err Demo.w0)
                        (log Demo.w0 ++
                         [EMkTemp (tmp_of Demo.E (fs Demo.w0)); EListDir (cwd Demo.w0);
                          EUnlink (tmp_of Demo.E (fs Demo.w0))]) None)).
  { apply (trimmer_without_audio Demo.E false Demo.w0).
    - reflexivity.
    - vm_compute; reflexivity.
    - vm_compute; reflexivity. }
  rewrite H. split; reflexivity.
Defined.

Lemma trimmer_trims_its_temporary_file_witness :
  ∃ l1 l2,
    log (trim_mp3s Demo.E true Demo.w_tmp).2 =
    l1 ++ [ESpawn (sox_end (Str.drop 5 (tmp_of Demo.E (fs Demo.w_tmp)))
                           (tmp_of Demo.E (fs Demo.w_tmp)));
           ESpawn (sox_start (Str.drop 5 (tmp_of Demo.E (fs Demo.w_tmp)))
                             (tmp_of Demo.E (fs Demo.w_tmp)))] ++ l2.
Proof.
  apply (trimmer_trims_its_temporary_file Demo.E true Demo.w_tmp).
  - reflexivity.
  - vm_compute; reflexivity.
  - vm_compute; reflexivity.
Defined.

Lemma downloads_are_trimmed_witness :
  fs Demo.w0 !! "/home/u/Downloads/Track.mp3" = None ∧
  ∃ tmp l1 l2,
    log (script Demo.E Argparse.defaults Demo.w0).2 =
      log Demo.w0 ++ l1 ++
      [ESpawn (sox_end "Track.mp3" tmp); ESpawn (sox_start "Track.mp3" tmp)] ++ l2 ∧
    ESpawn (youtube_dl "song-list.txt" false false false) ∈ l1.
Proof.
  split; [vm_compute; reflexivity|].
  apply (downloads_are_trimmed Demo.E Argparse.defaults Demo.w0
           "/home/u/Downloads/Track.mp3" "Track.mp3").
  - reflexivity.
  - reflexivity.
  - reflexivity.
  - vm_compute; reflexivity.
  - vm_compute; reflexivity.
  - vm_compute. eexists. reflexivity.
  - vm_compute; reflexivity.
  - vm_compute; reflexivity.
Defined.

Lemma nodownload_ignores_download_options_witness :
  script Demo.E Demo.a_trim_only Demo.w0 =
  script Demo.E (mkArgs "other.txt" true true true false true false false) Demo.w0.
Proof.
  apply nodownload_ignores_download_options; reflexivity.
Defined.

Lemma flags_set_their_destinations_witness :
  Argparse.parse_args ["--quiet"; "--wd"; "--nodownload"; "--quiet"] =
  Argparse.Parsed (mkArgs "song-list.txt" false false true true true false true) ∧
  ∃ e, Argparse.parse_args ["--notrim"; "--force"; "--nodownload"] = Argparse.UsageError e.
Proof.
  assert (H1 : Forall (λ s, s ∈ Flags.flag_strings)
                 ["--quiet"; "--wd"; "--nodownload"; "--quiet"]).
  { repeat constructor; apply list_elem_of_In; vm_compute; tauto. }
  assert (H2 : Forall (λ s, s ∈ Flags.flag_strings) ["--notrim"; "--force"; "--nodownload"]).
  { repeat constructor; apply list_elem_of_In; vm_compute; tauto. }
  split.
  - exact (proj1 (proj2 (flags_set_their_destinations _ H1) eq_refl)).
  - exact (proj1 (flags_set_their_destinations _ H2) eq_refl).
Defined.

Lemma song_list_reaches_the_downloader_witness :
  Str.startswith "-" "broken.txt" = false ∧
  Argparse.parse_args ["--wd"; "--song-list"; "broken.txt"] =
    Argparse.Parsed Demo.a_broken ∧
  ∃ s w' evs,
    main Demo.E ["--wd"; "--song-list=" +:+ "broken.txt"] Demo.w0 = Ran s w' ∧
    log w' =
      log Demo.w0 ++
      [EIsFile (resolve (cwd Demo.w0) "broken.txt");
       ESpawn ["youtube-dl"; "--extract-audio"; "--audio-format"; "mp3";
               "--audio-quality"; "0"; "--geo-bypass"; "--no-playlist";
               "--default-search"; "ytsearch"; "-a"; "broken.txt"; "--output";
               "%(title)s.%(ext)s"]] ++ evs.
Proof.
  destruct (song_list_reaches_the_downloader Demo.E "broken.txt" Demo.w0)
    as (_ & Hsep & Hrun & _).
  split; [reflexivity|]. split; [exact (Hsep eq_refl)|].
  apply Hrun; [discriminate | reflexivity | vm_compute; reflexivity].
Defined.
